(** * mb-reveal-plugins: the math and print plugins of a reveal.js deck

    A shallow embedding of the two plugins (the math plugin, a wrapper
    around MathJax 3, and [print/print.js]) and the properties their
    description states about them.

    Conventions of the embedding.
    - A JavaScript string is a [string] of 8-bit characters.  On ASCII text
      (URLs, query strings, identifiers, class names) indices and lengths
      are those of the JavaScript string; other text is taken in UTF-8.
    - A JavaScript number that the code computes with (heights, slide
      indices) is an integer, a [Z].
    - A DOM node carries its identity ([uid]): a variable of the script that
      holds an element holds its [uid], and the document is the tree of the
      nodes.  A live collection ([getElementsByTagName],
      [getElementsByClassName]) is a function of the current document,
      evaluated again each time the script indexes it.
    - An exception leaves the document as it was when it was thrown: a
      function that can throw returns the document with a [completion]. *)

From Stdlib Require Import ZArith QArith_base Ascii String DecimalString.
From stdpp Require Import gmap strings list fin_maps.

Set Default Proof Using "Type".
#[local] Set Warnings "-register-all".
#[local] Open Scope string_scope.
#[local] Open Scope list_scope.
#[local] Open Scope nat_scope.

(** ** JavaScript strings and numbers *)

Module JS.

(** [s.length] *)
Definition length (s : string) : Z := Z.of_nat (String.length s).

Definition clamp (i len : Z) : Z := Z.max 0 (Z.min i len).

(** [s.substring(start, end)]: both indices are clamped to [0, length]
    and swapped when [start > end]. *)
Definition substring (s : string) (start end_ : Z) : string :=
  let a := clamp start (length s) in
  let b := clamp end_ (length s) in
  let lo := Z.min a b in
  let hi := Z.max a b in
  String.substring (Z.to_nat lo) (Z.to_nat (hi - lo)) s.

(** [s.substring(start)] *)
Definition substring_from (s : string) (start : Z) : string :=
  substring s start (length s).

Fixpoint lastIndexOf_from (i : Z) (s needle : string) (found : Z) : Z :=
  let found' := if String.prefix needle s then i else found in
  match s with
  | EmptyString => found'
  | String _ s' => lastIndexOf_from (i + 1) s' needle found'
  end.

(** [s.lastIndexOf(needle)], [-1] when [needle] does not occur. *)
Definition lastIndexOf (s needle : string) : Z :=
  lastIndexOf_from 0 s needle (-1).

(** [s.includes(needle)] *)
Fixpoint includes (s needle : string) : bool :=
  String.prefix needle s ||
  match s with
  | EmptyString => false
  | String _ s' => includes s' needle
  end.

(** [String(n)] for an integer [n] *)
Definition Number_toString (n : Z) : string :=
  NilZero.string_of_int (Z.to_int n).

(** The operand of a string concatenation that is a string or a number. *)
Definition ToString (v : string + Z) : string :=
  match v with
  | inl s => s
  | inr n => Number_toString n
  end.

Definition upper (c : ascii) : ascii :=
  let n := nat_of_ascii c in
  if (97 <=? n)%nat && (n <=? 122)%nat then ascii_of_nat (n - 32) else c.


Fixpoint map_string (f : ascii → ascii) (s : string) : string :=
  match s with
  | EmptyString => EmptyString
  | String c s' => String (f c) (map_string f s')
  end.

(** [s.toUpperCase()] and [s.toLowerCase()] on ASCII text *)
Definition toUpperCase : string → string := map_string upper.

(** The matcher of a regular expression that is a literal [pattern]
    with flag [i]: at one position, character by character, each side
    canonicalised (upper-cased). *)
Fixpoint match_here_i (pattern s : string) : bool :=
  match pattern, s with
  | EmptyString, _ => true
  | String p pattern', String c s' =>
      if decide (upper p = upper c) then match_here_i pattern' s' else false
  | String _ _, EmptyString => false
  end.

(** [/pattern/gi.test(s)] for a regular expression used once (its
    [lastIndex] is 0): the pattern is tried at every position. *)
Fixpoint RegExp_test_i (pattern s : string) : bool :=
  match_here_i pattern s ||
  match s with
  | EmptyString => false
  | String _ s' => RegExp_test_i pattern s'
  end.

(** [s.match(/pattern/gi)]: the matched texts, left to right and not
    overlapping, [None] for [null] when there is none.  [skip] counts the
    characters of the last match that are still to be passed. *)
Fixpoint matches_gi (pattern : string) (skip : nat) (s : string) : list string :=
  match skip, s with
  | S k, EmptyString => []
  | S k, String _ s' => matches_gi pattern k s'
  | O, EmptyString => if match_here_i pattern s then [EmptyString] else []
  | O, String _ s' =>
      if match_here_i pattern s
      then String.substring 0 (String.length pattern) s ::
           matches_gi pattern (String.length pattern - 1) s'
      else matches_gi pattern 0 s'
  end.

Definition String_match_gi (s pattern : string) : option (list string) :=
  match matches_gi pattern 0 s with
  | [] => None
  | ms => Some ms
  end.

Definition hex_digit (c : ascii) : option nat :=
  let n := nat_of_ascii c in
  if (48 <=? n)%nat && (n <=? 57)%nat then Some (n - 48)%nat
  else if (65 <=? n)%nat && (n <=? 70)%nat then Some (n - 55)%nat
  else if (97 <=? n)%nat && (n <=? 102)%nat then Some (n - 87)%nat
  else None.

(** What the first octet of a UTF-8 sequence asks of the rest: how many
    octets follow and the range of the next one. *)
Definition utf8_lead (b : nat) : option (nat * nat * nat) :=
  if (b <? 194)%nat then None
  else if (b <? 224)%nat then Some (1, 128, 191)%nat
  else if (b =? 224)%nat then Some (2, 160, 191)%nat
  else if (b =? 237)%nat then Some (2, 128, 159)%nat
  else if (b <? 240)%nat then Some (2, 128, 191)%nat
  else if (b =? 240)%nat then Some (3, 144, 191)%nat
  else if (b <? 244)%nat then Some (3, 128, 191)%nat
  else if (b =? 244)%nat then Some (3, 128, 143)%nat
  else None.

(** The decoder of [decodeURIComponent]: [need] octets of a UTF-8
    sequence are still to come, each as an escape, the next one in
    [lo..hi].  [None] where the built-in throws [URIError]. *)
Fixpoint decode (need lo hi : nat) (s : string) : option string :=
  match s with
  | EmptyString => if need is O then Some EmptyString else None
  | String c s1 =>
      if decide (c = "%"%char) then
        match s1 with
        | String h (String l rest) =>
            match hex_digit h, hex_digit l with
            | Some x, Some y =>
                let b := (16 * x + y)%nat in
                match need with
                | O =>
                    if (b <? 128)%nat
                    then String (ascii_of_nat b) <$> decode 0 128 191 rest
                    else match utf8_lead b with
                         | Some (n, lo', hi') =>
                             String (ascii_of_nat b) <$> decode n lo' hi' rest
                         | None => None
                         end
                | S k =>
                    if (lo <=? b)%nat && (b <=? hi)%nat
                    then String (ascii_of_nat b) <$> decode k 128 191 rest
                    else None
                end
            | _, _ => None
            end
        | _ => None
        end
      else if need is O then String c <$> decode 0 128 191 s1 else None
  end.

(** [decodeURIComponent(s)] *)
Definition decodeURIComponent (s : string) : option string := decode 0 128 191 s.

(** The values of the configuration objects and of the variables that
    hold a callback. *)
Inductive jsval : Type :=
| JUndefined
| JNull
| JBool (b : bool)
| JNum (q : Q)
| JStr (s : string)
| JArr (items : list jsval)
| JObj (props : gmap string jsval)
| JFun (name : string).

End JS.

(** ** How a piece of script ends *)

Inductive exn := TypeError | URIError.

(** [Stuck]: the embedding has no answer (the bound of a loop was reached,
    or the script holds a node that the tree does not have). *)
Inductive completion := Normal | Throw (e : exn) | Stuck.

#[global] Instance exn_eq_dec : EqDecision exn.
Proof. solve_decision. Defined.
#[global] Instance completion_eq_dec : EqDecision completion.
Proof. solve_decision. Defined.

Section loops.
Context {St A : Type}.

(** The loop over a live collection, by index, as [for (x of coll)] on
    an [HTMLCollection] and [for (i = 0; i < coll.length; i++)] run it:
    the collection is read in the current state at every turn. *)
Fixpoint for_live (fuel : nat) (coll : St → list A)
    (body : A → St → St * completion) (i : nat) (st : St) : St * completion :=
  match coll st !! i with
  | None => (st, Normal)
  | Some x =>
      match fuel with
      | O => (st, Stuck)
      | S fuel' =>
          match body x st with
          | (st', Normal) => for_live fuel' coll body (S i) st'
          | r => r
          end
      end
  end.

(** The loop over an array or a static node list. *)
Fixpoint for_each (items : list A) (body : A → St → St * completion)
    (st : St) : St * completion :=
  match items with
  | [] => (st, Normal)
  | x :: items' =>
      match body x st with
      | (st', Normal) => for_each items' body st'
      | r => r
      end
  end.
End loops.

(** ** The document *)

Module DOM.

(** The identity of an element: two variables of the script hold the
    same element when they hold the same [uid]. *)
Definition uid := nat.

Inductive namespace := HTML | SVG | OtherNS.

#[global] Instance namespace_eq_dec : EqDecision namespace.
Proof. solve_decision. Defined.

Record element := mkElement {
  el_uid : uid;
  namespaceURI : namespace;
  localName : string;
  attributes : gmap string string
}.

(** A list of sibling nodes with their subtrees, through the two links
    a DOM node has to the tree below and after it: [firstChild] and
    [nextSibling].  The document is the list of the children of the
    [Document] node. *)
Inductive dom : Type :=
| Nil
| Text (data : string) (nextSibling : dom)
| Elem (e : element) (firstChild : dom) (nextSibling : dom).

(** For an HTML element [nodeName] is the qualified name in upper case,
    for others it is the qualified name.  No element has a prefix: the
    qualified name is the local name. *)
Definition nodeName (e : element) : string :=
  match namespaceURI e with
  | HTML => JS.toUpperCase (localName e)
  | _ => localName e
  end.

Definition getAttribute (e : element) (name : string) : option string :=
  attributes e !! name.

Definition hasAttribute (e : element) (name : string) : bool :=
  bool_decide (is_Some (attributes e !! name)).

Definition setAttribute (name value : string) (e : element) : element :=
  mkElement (el_uid e) (namespaceURI e) (localName e)
    (<[name := value]> (attributes e)).

Definition removeAttribute (name : string) (e : element) : element :=
  mkElement (el_uid e) (namespaceURI e) (localName e)
    (delete name (attributes e)).

(** [e.id]: the attribute, the empty string without it *)
Definition id_of (e : element) : string := default "" (attributes e !! "id").

Definition is_space (c : ascii) : bool :=
  let n := nat_of_ascii c in
  bool_decide (n = 32 ∨ n = 9 ∨ n = 10 ∨ n = 12 ∨ n = 13).

(** The tokens of an attribute that is a set of space-separated tokens;
    [cur] is the token being read, reversed. *)
Fixpoint tokens (cur : list ascii) (s : string) : list string :=
  let flush := match cur with [] => [] | _ => [string_of_list_ascii (rev cur)] end in
  match s with
  | EmptyString => flush
  | String c s' =>
      if is_space c then flush ++ tokens [] s' else tokens (c :: cur) s'
  end.

Definition classList (e : element) : list string :=
  tokens [] (default "" (attributes e !! "class")).

Definition has_class (cls : string) (e : element) : bool :=
  bool_decide (cls ∈ classList e).

(** *** Reading the tree *)

Fixpoint append (a b : dom) : dom :=
  match a with
  | Nil => b
  | Text s r => Text s (append r b)
  | Elem e c r => Elem e c (append r b)
  end.

(** [childNodes.length] of a node whose children are [c] *)
Fixpoint childNodes_length (c : dom) : nat :=
  match c with
  | Nil => 0
  | Text _ r => S (childNodes_length r)
  | Elem _ _ r => S (childNodes_length r)
  end.

(** The elements in tree order, each with what its ancestors hand down:
    [step a e] is what the children of [e] inherit when [e] inherits
    [a]. *)
Fixpoint annotate {A} (step : A → element → A) (a : A) (d : dom) : list (element * A) :=
  match d with
  | Nil => []
  | Text _ r => annotate step a r
  | Elem e c r => (e, a) :: annotate step (step a e) c ++ annotate step a r
  end.

(** The elements in tree order. *)
Fixpoint elements (d : dom) : list element :=
  match d with
  | Nil => []
  | Text _ r => elements r
  | Elem e c r => e :: elements c ++ elements r
  end.

(** The text nodes, each with the parent element that holds it. *)
Fixpoint texts (parent : option uid) (d : dom) : list (string * option uid) :=
  match d with
  | Nil => []
  | Text s r => (s, parent) :: texts parent r
  | Elem e c r => texts (Some (el_uid e)) c ++ texts parent r
  end.

(** The first element, in tree order, that is the node [u], with its
    children. *)
Fixpoint find_node (u : uid) (d : dom) : option (element * dom) :=
  match d with
  | Nil => None
  | Text _ r => find_node u r
  | Elem e c r =>
      if decide (el_uid e = u) then Some (e, c)
      else match find_node u c with
           | Some x => Some x
           | None => find_node u r
           end
  end.

Definition find_uid {A} (u : uid) (l : list (element * A)) : option (element * A) :=
  List.find (λ x, bool_decide (el_uid x.1 = u)) l.

(** [u.parentElement], [None] for [null] *)
Definition parentElement (u : uid) (d : dom) : option element :=
  match find_uid u (annotate (λ _ e, Some e) None d) with
  | Some (_, p) => p
  | None => None
  end.

(** [x] is an element of the tree and [q] is its parent element. *)
Definition child_of (x q : element) (d : dom) : Prop :=
  (x, Some q) ∈ annotate (λ _ e, Some e) None d.

#[global] Instance element_eq_dec : EqDecision element.
Proof. solve_decision. Defined.

#[global] Instance child_of_dec x q d : Decision (child_of x q d).
Proof. unfold child_of. apply _. Defined.

(** [document.getElementById(label)]: the first element in tree order
    whose [id] attribute is [label]; no element has the empty ID. *)
Definition getElementById (label : string) (d : dom) : option element :=
  if decide (label = "") then None
  else List.find (λ e, bool_decide (attributes e !! "id" = Some label)) (elements d).

(** [document.getElementsByTagName(name)] for a lower-case [name] *)
Definition getElementsByTagName (name : string) (d : dom) : list element :=
  filter (λ e, localName e = name) (elements d).

(** [slide.getElementsByClassName(cls)]: the descendants of [slide],
    itself excluded, in tree order *)
Definition getElementsByClassName (slide : uid) (cls : string) (d : dom) : list element :=
  match find_node slide d with
  | Some (_, c) => filter (λ e, has_class cls e = true) (elements c)
  | None => []
  end.

Definition is_section (e : element) : bool :=
  bool_decide (localName e = "section").

Definition nearest_section (a : option element) (e : element) : option element :=
  if is_section e then Some e else a.

(** [u.closest("section")]: [u] itself or its nearest ancestor that is a
    [section] element *)
Definition closest_section (u : uid) (d : dom) : option element :=
  match find_uid u (annotate nearest_section None d) with
  | Some (e, a) => nearest_section a e
  | None => None
  end.

(** *** Changing the tree *)

(** The tree with [g] applied to every element. *)
Fixpoint dmap (g : element → element) (d : dom) : dom :=
  match d with
  | Nil => Nil
  | Text s r => Text s (dmap g r)
  | Elem e c r => Elem (g e) (dmap g c) (dmap g r)
  end.

(** A change [f] of the attributes of the node [u]. *)
Definition update (u : uid) (f : element → element) (d : dom) : dom :=
  dmap (λ e, if decide (el_uid e = u) then f e else e) d.

(** The tree without the node [u] and its subtree, and that subtree. *)
Fixpoint detach (u : uid) (d : dom) : option (element * dom) * dom :=
  match d with
  | Nil => (None, Nil)
  | Text s r => let '(x, r') := detach u r in (x, Text s r')
  | Elem e c r =>
      if decide (el_uid e = u) then (Some (e, c), r)
      else match detach u c with
           | (Some x, c') => (Some x, Elem e c' r)
           | (None, _) => let '(x, r') := detach u r in (x, Elem e c r')
           end
  end.

(** The tree with [n] as the last child of the node [s]; [None] when
    [s] is not in the tree. *)
Fixpoint attach (s : uid) (n : dom) (d : dom) : option dom :=
  match d with
  | Nil => None
  | Text t r => Text t <$> attach s n r
  | Elem e c r =>
      if decide (el_uid e = s) then Some (Elem e (append c n) r)
      else match attach s n c with
           | Some c' => Some (Elem e c' r)
           | None => Elem e c <$> attach s n r
           end
  end.

(** [s.appendChild(u)] for a node [u] of the tree that is not [s] or an
    ancestor of [s]: [u] leaves its parent and becomes the last child of
    [s].  [None] when [u] or [s] is not there. *)
Definition appendChild (s u : uid) (d : dom) : option dom :=
  match detach u d with
  | (Some (e, c), d') => attach s (Elem e c Nil) d'
  | (None, _) => None
  end.

(** [p.removeChild(u)] for a child [u] of [p] *)
Definition removeChild (u : uid) (d : dom) : dom := (detach u d).2.

(** The elements in tree order, each with its parent element. *)
Definition edges (parent : option element) (d : dom) : list (element * option element) :=
  annotate (λ _ e, Some e) parent d.

(** The elements in tree order, each with its children. *)
Fixpoint subtrees (d : dom) : list (element * dom) :=
  match d with
  | Nil => []
  | Text _ r => subtrees r
  | Elem e c r => (e, c) :: subtrees c ++ subtrees r
  end.

(** [document.createElement]: a node that is no node of the document *)
Definition fresh (d : dom) : uid := S (foldr Nat.max 0 (el_uid <$> elements d)).

(** A tree of DOM nodes: no node occurs twice. *)
Definition wf (d : dom) : Prop := NoDup (el_uid <$> elements d).

#[global] Instance wf_dec d : Decision (wf d).
Proof. unfold wf. apply _. Defined.

End DOM.

(** ** The page and the host framework *)

(** The functions that the print plugin hands to [Reveal.addEventListener]. *)
Inductive handler :=
| checkHeight_handler
| setHeight_handler
| fixFooters_handler
| print_after (delay : Z).   (* [function() { setTimeout(window.print, delay) }] *)

#[global] Instance handler_eq_dec : EqDecision handler.
Proof. solve_decision. Defined.

Inductive level := Log | Error.

#[global] Instance level_eq_dec : EqDecision level.
Proof. solve_decision. Defined.

Record world := mkWorld {
  document : DOM.dom;
  title : string;                                (* [document.title] *)
  pathname : string;                             (* [window.location.pathname] *)
  search : string;                               (* [window.location.search] *)
  webdriver : bool;                              (* [navigator.webdriver] *)
  console : list (level * string);
  window_MathJax : option JS.jsval;
  callbacks : gmap DOM.uid JS.jsval;             (* variable [callback] of the [loadScript] call that made the script *)
  calls : list string;                           (* the functions called, in order *)
  config_height : Z;                             (* [Reveal.getConfig().height] *)
  config_math : option (gmap string JS.jsval);   (* [Reveal.getConfig().math] *)
  getSlides : list DOM.uid;                      (* [Reveal.getSlides()] *)
  currentSlide_clientHeight : Z;                 (* [Reveal.getCurrentSlide().clientHeight] *)
  indices_h : Z;                                 (* [Reveal.getIndices().h] *)
  indices_v : Z;                                 (* [Reveal.getIndices().v] *)
  listeners : list (string * handler)            (* [Reveal.addEventListener], in order *)
}.

Definition set_document (d : DOM.dom) (w : world) : world :=
  mkWorld d (title w) (pathname w) (search w) (webdriver w) (console w)
    (window_MathJax w) (callbacks w) (calls w) (config_height w) (config_math w)
    (getSlides w) (currentSlide_clientHeight w) (indices_h w) (indices_v w)
    (listeners w).

Definition set_title (t : string) (w : world) : world :=
  mkWorld (document w) t (pathname w) (search w) (webdriver w) (console w)
    (window_MathJax w) (callbacks w) (calls w) (config_height w) (config_math w)
    (getSlides w) (currentSlide_clientHeight w) (indices_h w) (indices_v w)
    (listeners w).

Definition set_console (c : list (level * string)) (w : world) : world :=
  mkWorld (document w) (title w) (pathname w) (search w) (webdriver w) c
    (window_MathJax w) (callbacks w) (calls w) (config_height w) (config_math w)
    (getSlides w) (currentSlide_clientHeight w) (indices_h w) (indices_v w)
    (listeners w).

Definition set_window_MathJax (v : option JS.jsval) (w : world) : world :=
  mkWorld (document w) (title w) (pathname w) (search w) (webdriver w) (console w)
    v (callbacks w) (calls w) (config_height w) (config_math w)
    (getSlides w) (currentSlide_clientHeight w) (indices_h w) (indices_v w)
    (listeners w).

Definition set_callbacks (c : gmap DOM.uid JS.jsval) (w : world) : world :=
  mkWorld (document w) (title w) (pathname w) (search w) (webdriver w) (console w)
    (window_MathJax w) c (calls w) (config_height w) (config_math w)
    (getSlides w) (currentSlide_clientHeight w) (indices_h w) (indices_v w)
    (listeners w).

Definition set_calls (c : list string) (w : world) : world :=
  mkWorld (document w) (title w) (pathname w) (search w) (webdriver w) (console w)
    (window_MathJax w) (callbacks w) c (config_height w) (config_math w)
    (getSlides w) (currentSlide_clientHeight w) (indices_h w) (indices_v w)
    (listeners w).

Definition set_listeners (l : list (string * handler)) (w : world) : world :=
  mkWorld (document w) (title w) (pathname w) (search w) (webdriver w) (console w)
    (window_MathJax w) (callbacks w) (calls w) (config_height w) (config_math w)
    (getSlides w) (currentSlide_clientHeight w) (indices_h w) (indices_v w) l.

(** [console.error(msg)] and [console.log(msg)] *)
Definition console_error (msg : string) (w : world) : world :=
  set_console (console w ++ [(Error, msg)]) w.
Definition console_log (msg : string) (w : world) : world :=
  set_console (console w ++ [(Log, msg)]) w.

(** [Reveal.addEventListener(type, h)] *)
Definition addEventListener (type : string) (h : handler) (w : world) : world :=
  set_listeners (listeners w ++ [(type, h)]) w.

(** A step on the document as a step on the page. *)
Definition on_document (f : DOM.dom → DOM.dom * completion) (w : world) : world * completion :=
  let '(d, c) := f (document w) in (set_document d w, c).

(** Sequencing: what follows runs when the first part ended normally. *)
Definition andThen {St} (r : St * completion) (k : St → St * completion) : St * completion :=
  match r with
  | (s, Normal) => k s
  | _ => r
  end.

Notation "r >>> k" := (andThen r k) (at level 61, left associativity).

(** ** The math plugin *)

Module RevealMath.
Import JS.

(** [Reveal.getConfig().math || {}] *)
Definition options (w : world) : gmap string jsval := default ∅ (config_math w).

(** [options.k || d] for an option that is a string when it is there:
    the default for a missing or empty one.  (An option of another type
    is not in the embedding; it reads as a missing one.) *)
Definition string_option (o : gmap string jsval) (k d : string) : string :=
  match o !! k with
  | Some (JStr s) => if decide (s = "") then d else s
  | _ => d
  end.

Definition mathjax (w : world) : string :=
  string_option (options w) "mathjax" "https://cdn.jsdelivr.net/npm/mathjax@3/es5/".
Definition config (w : world) : string :=
  string_option (options w) "config" "tex-svg.js".
Definition url (w : world) : string := mathjax w +:+ config w.


(** *** loadScript *)

(** No node of the document and no script made before. *)
Definition fresh_script (w : world) : DOM.uid :=
  Nat.max (DOM.fresh (document w)) (S (foldr Nat.max 0 (map_to_list (callbacks w)).*1)).

Definition script_element (u : DOM.uid) (url : string) : DOM.element :=
  DOM.mkElement u DOM.HTML "script"
    (<["src" := url]> (<["id" := "MathJax-script"]> (<["type" := "text/javascript"]> ∅))).

(** [finish], the wrapper around the callback of the script [script]:
    [typeof callback === 'function'] holds of a [JFun] only. *)
Definition finish (script : DOM.uid) (w : world) : world :=
  match callbacks w !! script with
  | Some (JFun f) =>
      set_callbacks (<[script := JNull]> (callbacks w)) (set_calls (calls w ++ [f]) w)
  | _ => w
  end.

(** What the browser tells a script element. *)
Inductive notification :=
| load                                 (* the [load] event: [script.onload] *)
| readystatechange (readyState : string).  (* [script.onreadystatechange] *)

Definition notify (script : DOM.uid) (n : notification) (w : world) : world :=
  match n with
  | load => finish script w
  | readystatechange readyState =>
      if decide (readyState = "loaded") then finish script w else w
  end.

Definition loadScript (url : string) (callback : jsval) (w : world) : world * completion :=
  let head := List.find (λ e, bool_decide (DOM.localName e = "head")) (DOM.elements (document w)) in
  let script := fresh_script w in
  let w1 := set_callbacks (<[script := callback]> (callbacks w)) w in
  match head with
  | None => (w1, Throw TypeError)
  | Some h =>
      match DOM.attach (DOM.el_uid h) (DOM.Elem (script_element script url) DOM.Nil DOM.Nil) (document w1) with
      | Some d => (set_document d w1, Normal)
      | None => (w1, Stuck)
      end
  end.

(** *** fixLinks *)

(** The value of property [href] of an [a] element. *)
Inductive href_value :=
| href_string                          (* an HTML anchor: a string *)
| href_animated (baseVal : string)     (* an SVG anchor: an [SVGAnimatedString] *)
| href_undefined.                      (* no such property *)

(** [href.baseVal] of an SVG anchor reflects attribute [href], or the
    older [xlink:href] when only that one is there. *)
Definition get_baseVal (e : DOM.element) : string :=
  match DOM.attributes e !! "href" with
  | Some v => v
  | None => default "" (DOM.attributes e !! "xlink:href")
  end.

Definition set_baseVal (v : string) (e : DOM.element) : DOM.element :=
  match DOM.attributes e !! "href", DOM.attributes e !! "xlink:href" with
  | None, Some _ => DOM.setAttribute "xlink:href" v e
  | _, _ => DOM.setAttribute "href" v e
  end.

Definition href (e : DOM.element) : href_value :=
  match DOM.namespaceURI e with
  | DOM.HTML => href_string
  | DOM.SVG => href_animated (get_baseVal e)
  | DOM.OtherNS => href_undefined
  end.

Definition marker : string := "#mjx-eqn".

(** The body of the loop of [fixLinks] for the anchor [a]. *)
Definition fixLink (a : DOM.element) (d : DOM.dom) : DOM.dom * completion :=
  match href a with
  | href_undefined => (d, Throw TypeError)
  | href_string => (d, Normal)
  | href_animated label =>
      if decide (label = "") then (d, Normal)
      else if includes label marker then
        match decodeURIComponent (substring_from label 1) with
        | None => (d, Throw URIError)
        | Some label' =>
            match DOM.getElementById label' d with
            | None => (d, Normal)
            | Some eqn =>
                match DOM.closest_section (DOM.el_uid eqn) d with
                | None => (d, Normal)
                | Some s =>
                    (DOM.update (DOM.el_uid a) (set_baseVal ("#" +:+ DOM.id_of s)) d, Normal)
                end
            end
        end
      else (d, Normal)
  end.

Definition fixLinks (d : DOM.dom) : DOM.dom * completion :=
  for_live (List.length (DOM.elements d)) (DOM.getElementsByTagName "a") fixLink 0 d.

(** *** init *)

Definition obj (l : list (string * jsval)) : jsval := JObj (list_to_map l).
Definition macro (body : string) (args : Z) : jsval := JArr [JStr body; JNum (inject_Z args)].

(** The object that [init] stores in [window.MathJax]. *)
Definition MathJax_configuration : jsval :=
  obj [
    ("loader", obj [("load", JArr [JStr "[tex]/ams"]); ("typeset", JBool false)]);
    ("startup", obj [("ready", JFun "startup.ready")]);
    ("svg", obj [
      ("scale", JNum (Qmake 3 2));
      ("minScale", JNum (Qmake 1 2));
      ("matchFontHeight", JBool false);
      ("mtextInheritFont", JBool true);
      ("merrorInheritFont", JBool true);
      ("mathmlSpacing", JBool false);
      ("skipAttributes", obj []);
      ("exFactor", JNum (Qmake 1 2));
      ("displayAlign", JStr "center");
      ("displayIndent", JStr "0");
      ("fontCache", JStr "none");
      ("localID", JNull);
      ("internalSpeechTitles", JBool true);
      ("titleID", JNum (inject_Z 0))]);
    ("tex", obj [
      ("tags", JStr "ams");
      ("packages", obj [("[+]", JArr [JStr "ams"])]);
      ("macros", obj [
        ("R", JStr "{{\mathrm{{I}\kern-.15em{R}}}}");
        ("laplace", JStr "{\Delta}");
        ("grad", JStr "{\nabla}");
        ("T", JStr "^{\mathsf{T}}");
        ("abs", macro "\left\lvert #1 \right\rvert" 1);
        ("norm", macro "\left\Vert #1 \right\Vert" 1);
        ("iprod", macro "\left\langle #1 \right\rangle" 1);
        ("vec", macro "{\mathbf{#1}}" 1);
        ("mat", macro "{\mathbf{#1}}" 1);
        ("set", macro "\mathcal{#1}" 1);
        ("func", macro "\mathrm{#1}" 1);
        ("trans", macro "{#1}\mkern-1mu^{\mathsf{T}}" 1);
        ("matrix", macro "\begin{bmatrix} #1 \end{bmatrix}" 1);
        ("vector", macro "\begin{pmatrix} #1 \end{pmatrix}" 1);
        ("of", macro "\mkern{-0mu}\left( #1 \right)" 1);
        ("diff", macro "\frac{\mathrm{d}{#1}}{\mathrm{d}{#2}}" 2);
        ("pdiff", macro "\frac{\partial {#1}}{\partial {#2}}" 2)])])].

(** [printMode], computed by [init] and used nowhere *)
Definition printMode (w : world) : bool := RegExp_test_i "print-pdf" (search w).

(** The function that [init] passes to [loadScript]. *)
Definition loaded : jsval := JFun "init.loaded".

Definition init (w : world) : world * completion :=
  let _ := printMode w in
  loadScript (url w) loaded (set_window_MathJax (Some MathJax_configuration) w).

(** The continuation of [MathJax.startup.promise] in [loaded]: a log
    line, [Reveal.layout()], then [fixLinks()]. *)
Definition typeset_done (w : world) : world * completion :=
  on_document fixLinks (console_log "mathjax typeset done" w).

End RevealMath.

(** ** The print plugin *)

Module RevealPrint.
Import JS.

(** *** fixFooters *)

(** The body of the loop of [fixFooters] for the element [footer] of
    the slide [slide]. *)
Definition fixFooter (slide : DOM.uid) (footer : DOM.element) (d : DOM.dom) : DOM.dom * completion :=
  match DOM.parentElement (DOM.el_uid footer) d with
  | None => (d, Throw TypeError)
  | Some parent =>
      if decide (DOM.nodeName parent = "P") then
        match DOM.appendChild slide (DOM.el_uid footer) d with
        | None => (d, Stuck)
        | Some d1 =>
            match DOM.find_node (DOM.el_uid parent) d1 with
            | None => (d1, Stuck)
            | Some (_, childNodes) =>
                if decide (DOM.childNodes_length childNodes = 0) then
                  match DOM.parentElement (DOM.el_uid parent) d1 with
                  | None => (d1, Throw TypeError)
                  | Some _ => (DOM.removeChild (DOM.el_uid parent) d1, Normal)
                  end
                else (d1, Normal)
            end
        end
      else (d, Normal)
  end.

(** The function that [fixFooters] runs on each slide. *)
Definition fixFooters_slide (slide : DOM.uid) (d : DOM.dom) : DOM.dom * completion :=
  for_live (List.length (DOM.elements d))
    (DOM.getElementsByClassName slide "footer") (fixFooter slide) 0 d.

Definition fixFooters (w : world) : world * completion :=
  on_document (for_each (getSlides w) fixFooters_slide) w.

(** *** checkHeight *)

(** [slideNumber()]: a string for a vertical slide, else a number *)
Definition slideNumber (w : world) : string + Z :=
  if (0 <? indices_v w)%Z
  then inl ("(h:" +:+ Number_toString (indices_h w + 1) +:+ ", v:"
            +:+ Number_toString (indices_v w + 1) +:+ ")")
  else inr (indices_h w + 1)%Z.

Definition too_high (w : world) : string :=
  "slide " +:+ ToString (slideNumber w) +:+ " is "
  +:+ Number_toString (currentSlide_clientHeight w - config_height w)
  +:+ "px too high".

Definition checkHeight (w : world) : world :=
  let configHeight := config_height w in
  let slideHeight := currentSlide_clientHeight w in
  if (configHeight <? slideHeight)%Z then console_error (too_high w) w else w.

(** *** The fixups of the export *)

(** What selector [.reveal section iframe.pdf] needs to know of the
    ancestors of an element: is one of them of class [reveal], and is
    one of them a [section] below such a one. *)
Definition below (a : bool * bool) (e : DOM.element) : bool * bool :=
  (a.1 || DOM.has_class "reveal" e, a.2 || (a.1 && DOM.is_section e)).

(** [document.querySelectorAll('.reveal section iframe.pdf')] *)
Definition pdf_iframes (d : DOM.dom) : list DOM.element :=
  (filter (λ x, DOM.localName x.1 = "iframe" ∧ DOM.has_class "pdf" x.1 = true ∧ x.2.2 = true)
     (DOM.annotate below (false, false) d)).*1.

Definition activate_iframe (e : DOM.element) : DOM.element :=
  match DOM.getAttribute e "data-src" with
  | Some v => DOM.setAttribute "src" v e
  | None => e
  end.

Definition setupIframes (d : DOM.dom) : DOM.dom * completion :=
  for_each (pdf_iframes d)
    (λ e d, (DOM.update (DOM.el_uid e) activate_iframe d, Normal)) d.

Definition start_time (src : string) : string :=
  if includes src "#t=" then src else src +:+ "#t=0.5".

Definition activate_video (vid : DOM.element) : DOM.element :=
  DOM.removeAttribute "controls"
    match DOM.getAttribute vid "data-src" with
    | Some src => DOM.removeAttribute "data-src" (DOM.setAttribute "src" (start_time src) vid)
    | None => vid
    end.

Definition tag_background_video (e : DOM.element) : DOM.element :=
  match DOM.getAttribute e "data-background-video" with
  | Some src =>
      if includes src "#t=" then e
      else DOM.setAttribute "data-background-video" (src +:+ "#t=0.5") e
  | None => e
  end.

Definition setupVideos (d : DOM.dom) : DOM.dom * completion :=
  for_live (List.length (DOM.elements d)) (DOM.getElementsByTagName "video")
    (λ vid d, (DOM.update (DOM.el_uid vid) activate_video d, Normal)) 0 d
  >>> λ d,
  for_live (List.length (DOM.elements d)) (DOM.getElementsByTagName "section")
    (λ e d, (DOM.update (DOM.el_uid e) tag_background_video d, Normal)) 0 d.

Definition setupTitle (w : world) : world :=
  let url := pathname w in
  let filename := substring_from url (lastIndexOf url "/" + 1) in
  let basename := substring filename 0 (lastIndexOf url ".") in
  set_title (basename +:+ "pdf") w.

(** *** init *)

(** [!!window.location.search.match(/print-pdf/gi)] *)
Definition pdf (w : world) : bool :=
  bool_decide (is_Some (String_match_gi (search w) "print-pdf")).

(** The function in the promise of [init]; [resolve()] ends it. *)
Definition init (w : world) : world * completion :=
  let w := addEventListener "slidechanged" checkHeight_handler w in
  let w := addEventListener "ready" setHeight_handler w in
  let w := addEventListener "ready" fixFooters_handler w in
  if pdf w then
    on_document setupIframes w
    >>> on_document setupVideos
    >>> λ w, (setupTitle w, Normal)
    >>> λ w,
      if negb (webdriver w)
      then (addEventListener "pdf-ready" (print_after 1000) w, Normal)
      else (w, Normal)
  else (w, Normal).

End RevealPrint.

(** ** What the properties speak of *)

(** The browser tells the script [script] the notifications [ns], one
    after the other. *)
Definition notify_all (script : DOM.uid) (ns : list RevealMath.notification) (w : world) : world :=
  foldl (λ w n, RevealMath.notify script n w) w ns.



(** The properties of an object. *)
Definition props (v : JS.jsval) : gmap string JS.jsval :=
  match v with
  | JS.JObj m => m
  | _ => ∅
  end.

(** What [fixLinks] does with one anchor. *)
Inductive action := Skip | Rewrite (baseVal : string) | Raise (e : exn).

(** The element that the fragment [label] stands for, as the address of
    its slide. *)
Definition slide_of (d : DOM.dom) (label : string) : option string :=
  match DOM.getElementById label d with
  | None => None
  | Some eqn =>
      match DOM.closest_section (DOM.el_uid eqn) d with
      | None => None
      | Some s => Some ("#" +:+ DOM.id_of s)
      end
  end.

Definition link_action (d : DOM.dom) (a : DOM.element) : action :=
  match RevealMath.href a with
  | RevealMath.href_undefined => Raise TypeError
  | RevealMath.href_string => Skip
  | RevealMath.href_animated label =>
      if decide (label = "") then Skip
      else if JS.includes label RevealMath.marker then
        match JS.decodeURIComponent (JS.substring_from label 1) with
        | None => Raise URIError
        | Some label' =>
            match slide_of d label' with
            | None => Skip
            | Some v => Rewrite v
            end
        end
      else Skip
  end.

(** The anchor [a] after its turn. *)
Definition fixed (d : DOM.dom) (a : DOM.element) : DOM.element :=
  match link_action d a with
  | Rewrite v => RevealMath.set_baseVal v a
  | _ => a
  end.

(** The anchors that have their turn: those before the first one that
    throws. *)
Fixpoint processed (d : DOM.dom) (anchors : list DOM.element) : list DOM.element :=
  match anchors with
  | [] => []
  | a :: anchors' =>
      match link_action d a with
      | Raise _ => []
      | _ => a :: processed d anchors'
      end
  end.

Fixpoint outcome (d : DOM.dom) (anchors : list DOM.element) : completion :=
  match anchors with
  | [] => Normal
  | a :: anchors' =>
      match link_action d a with
      | Raise e => Throw e
      | _ => outcome d anchors'
      end
  end.

(** [fixed] on the nodes [turn], the other elements as they are. *)
Definition fix_those (d : DOM.dom) (turn : list DOM.uid) (e : DOM.element) : DOM.element :=
  if decide (DOM.el_uid e ∈ turn) then fixed d e else e.

(** No slide has an identifier that reads as the address of an equation. *)
Definition plain_slide_ids (d : DOM.dom) : Prop :=
  Forall (λ s, DOM.is_section s = true →
               JS.includes ("#" +:+ DOM.id_of s) RevealMath.marker = false)
    (DOM.elements d).

#[global] Instance plain_slide_ids_dec d : Decision (plain_slide_ids d).
Proof. unfold plain_slide_ids. apply _. Defined.

(** A change of elements that keeps what they are: node, name and
    identifier. *)
Definition keeps_identity (g : DOM.element → DOM.element) : Prop :=
  ∀ e, DOM.el_uid (g e) = DOM.el_uid e ∧
       DOM.namespaceURI (g e) = DOM.namespaceURI e ∧
       DOM.localName (g e) = DOM.localName e ∧
       DOM.attributes (g e) !! "id" = DOM.attributes e !! "id".

(** What the steps of [fixFooters] keep of a tree [d], in the tree [d']
    that they lead to: no node is new; every text is where it was; an
    element is below the parent that it had unless it was a footer in a
    paragraph, or is itself a paragraph that has been removed. *)
Definition tidied (d d' : DOM.dom) : Prop :=
  DOM.wf d' ∧
  DOM.elements d' ⊆ DOM.elements d ∧
  length (DOM.elements d') ≤ length (DOM.elements d) ∧
  DOM.texts None d' ≡ₚ DOM.texts None d ∧
  ∀ x q, DOM.child_of x q d →
    DOM.has_class "footer" x = false ∨ DOM.nodeName q ≠ "P" →
    DOM.child_of x q d' ∨ (DOM.nodeName x = "P" ∧ x ∉ DOM.elements d').

(** ** Pages for the scenarios *)

Module Examples.
Import DOM.

Definition el (u : uid) (ns : namespace) (name : string) (attrs : list (string * string)) : element :=
  mkElement u ns name (list_to_map attrs).

(** A page with the document [d] at [path] and [query]. *)
Definition page (d : dom) (path query : string) : world :=
  mkWorld d "" path query false [] None ∅ [] 700 None [] 0 0 0 [].

Definition with_slide (height h v : Z) (w : world) : world :=
  mkWorld (document w) (title w) (pathname w) (search w) (webdriver w) (console w)
    (window_MathJax w) (callbacks w) (calls w) (config_height w) (config_math w)
    (getSlides w) height h v (listeners w).


Definition with_slides (s : list uid) (w : world) : world :=
  mkWorld (document w) (title w) (pathname w) (search w) (webdriver w) (console w)
    (window_MathJax w) (callbacks w) (calls w) (config_height w) (config_math w)
    s (currentSlide_clientHeight w) (indices_h w) (indices_v w) (listeners w).

(** [<html><head></head><body></body></html>] *)
Definition empty_deck : dom :=
  Elem (el 0 HTML "html" [])
    (Elem (el 1 HTML "head" []) Nil
    (Elem (el 2 HTML "body" []) Nil Nil)) Nil.


(** An equation on slide 7 and a link to it, the anchor in namespace [ns]:
    [<section id="slide-7"><span id="mjx-eqn:3"></span><a href="#mjx-eqn:3"></a></section>] *)
Definition the_anchor (ns : namespace) : element :=
  el 3 ns "a" [("href", "#mjx-eqn:3")].

Definition equation_link (ns : namespace) : dom :=
  Elem (el 1 HTML "section" [("id", "slide-7")])
    (Elem (el 2 HTML "span" [("id", "mjx-eqn:3")]) Nil
    (Elem (the_anchor ns) Nil Nil)) Nil.

(** A slide whose identifier reads as the address of an equation of
    another slide:
    [<section id="slide-7"><span id="mjx-eqn:2"></span></section>
     <section id="mjx-eqn%3A2"><span id="mjx-eqn:1"></span><a href="#mjx-eqn:1"></a></section>] *)
Definition chained_slides : dom :=
  Elem (el 1 HTML "section" [("id", "slide-7")])
    (Elem (el 2 HTML "span" [("id", "mjx-eqn:2")]) Nil Nil)
  (Elem (el 3 HTML "section" [("id", "mjx-eqn%3A2")])
    (Elem (el 4 HTML "span" [("id", "mjx-eqn:1")]) Nil
    (Elem (el 5 SVG "a" [("href", "#mjx-eqn:1")]) Nil Nil)) Nil).

Definition footer (u : uid) (text : string) : dom :=
  Elem (el u HTML "span" [("class", "footer")]) (Text text Nil) Nil.

(** A slide with one footer in a paragraph:
    [<section><p><span class="footer">X</span></p></section>] *)
Definition one_footer : dom :=
  Elem (el 1 HTML "section" [])
    (Elem (el 2 HTML "p" []) (footer 3 "X") Nil) Nil.

(** A slide with two footers, each in its paragraph:
    [<section><p><span class="footer">A</span></p><p><span class="footer">B</span></p></section>] *)
Definition two_footers : dom :=
  Elem (el 1 HTML "section" [])
    (Elem (el 2 HTML "p" []) (footer 3 "A")
    (Elem (el 4 HTML "p" []) (footer 5 "B") Nil)) Nil.

(** A footer after a space in its paragraph, and a footer in a [div]:
    [<section><p> <span class="footer">A</span></p><div><span class="footer">B</span></div></section>] *)
Definition spaced_footer : dom :=
  Elem (el 1 HTML "section" [])
    (Elem (el 2 HTML "p" []) (Text " " (footer 3 "A"))
    (Elem (el 4 HTML "div" []) (footer 5 "B") Nil)) Nil.

(** The deck [d] with its one slide, the node 1. *)
Definition deck (d : dom) : world :=
  with_slides [1] (page d "/deck.html" "").

End Examples.

(** ** What the further properties speak of *)

(** [f] on the nodes [us], the other elements as they are. *)
Definition on_nodes (us : list DOM.uid) (f : DOM.element → DOM.element)
    (e : DOM.element) : DOM.element :=
  if decide (DOM.el_uid e ∈ us) then f e else e.

(** What [setupVideos] makes of an element. *)
Definition for_print (e : DOM.element) : DOM.element :=
  if decide (DOM.localName e = "video") then RevealPrint.activate_video e
  else if decide (DOM.localName e = "section") then RevealPrint.tag_background_video e
  else e.

(** A slide with media:
    [<div class="reveal"><section data-background-video="bg.mp4">
       <video data-src="clip.mp4" controls=""></video>
       <iframe class="pdf" data-src="demo.html"></iframe>
       <iframe data-src="other.html"></iframe>
     </section></div>] *)
Definition media_deck : DOM.dom :=
  DOM.Elem (Examples.el 1 DOM.HTML "div" [("class", "reveal")])
    (DOM.Elem (Examples.el 2 DOM.HTML "section" [("data-background-video", "bg.mp4")])
      (DOM.Elem (Examples.el 3 DOM.HTML "video" [("data-src", "clip.mp4"); ("controls", "")])
         DOM.Nil
      (DOM.Elem (Examples.el 4 DOM.HTML "iframe" [("class", "pdf"); ("data-src", "demo.html")])
         DOM.Nil
      (DOM.Elem (Examples.el 5 DOM.HTML "iframe" [("data-src", "other.html")])
         DOM.Nil DOM.Nil)))
      DOM.Nil)
    DOM.Nil.

(** Links of the engine's output on a slide: one with an escaped
    colon, one to an equation that is not there:
    [<section id="slide-7"><span id="mjx-eqn:3"></span>
       <svg:a href="#mjx-eqn%3A3"/><svg:a href="#mjx-eqn:9"/></section>] *)
Definition escaped_link : DOM.element :=
  Examples.el 10 DOM.SVG "a" [("href", "#mjx-eqn%3A3")].

Definition dangling_link : DOM.element :=
  Examples.el 11 DOM.SVG "a" [("href", "#mjx-eqn:9")].

Definition links_deck (more : DOM.dom) : DOM.dom :=
  DOM.Elem (Examples.el 1 DOM.HTML "section" [("id", "slide-7")])
    (DOM.Elem (Examples.el 2 DOM.HTML "span" [("id", "mjx-eqn:3")]) DOM.Nil
    (DOM.Elem escaped_link DOM.Nil
    (DOM.Elem dangling_link DOM.Nil more))) DOM.Nil.

(** After them a link with a broken escape, and one more link:
    [<svg:a href="#mjx-eqn%zz"/><svg:a href="#mjx-eqn:3"/>] *)
Definition broken_link : DOM.element :=
  Examples.el 12 DOM.SVG "a" [("href", "#mjx-eqn%zz")].

Definition late_link : DOM.element :=
  Examples.el 13 DOM.SVG "a" [("href", "#mjx-eqn:3")].

Definition broken_links : DOM.dom :=
  links_deck (DOM.Elem broken_link DOM.Nil (DOM.Elem late_link DOM.Nil DOM.Nil)).

(** The element [x] is the one child node of the element [q]. *)
Definition only_child (x q : DOM.element) (d : DOM.dom) : Prop :=
  Forall (λ e, e.2 = Some q → e.1 = x) (DOM.edges None d) ∧
  Forall (λ t, t.2 ≠ Some (DOM.el_uid q)) (DOM.texts None d).

#[global] Instance only_child_dec x q d : Decision (only_child x q d).
Proof. unfold only_child. apply _. Defined.

(** A slide whose footers are where they belong:
    [<section><div><span class="footer">A</span></div><span class="footer">B</span></section>] *)
Definition placed_footers : DOM.dom :=
  DOM.Elem (Examples.el 1 DOM.HTML "section" [])
    (DOM.Elem (Examples.el 2 DOM.HTML "div" []) (Examples.footer 3 "A")
    (Examples.footer 4 "B")) DOM.Nil.

(** The elements below the node [u], in tree order: what the live
    collections of [u] are taken from. *)
Definition descendants (u : DOM.uid) (d : DOM.dom) : list DOM.element :=
  match DOM.find_node u d with
  | Some (_, c) => DOM.elements c
  | None => []
  end.

(** * Properties *)

(** A closed decidable proposition, by evaluation. *)
Ltac by_compute := apply (bool_decide_unpack _); vm_compute; exact I.

(** Membership in a list that is written out. *)
Ltac in_list := apply list_elem_of_In; simpl; auto 10.

(** ** Strings *)

Module JS_facts.
Import JS.

Lemma prefix_app (p s : string) : String.prefix p (p +:+ s) = true.
Proof.
  induction p as [|c p IH]; simpl.
  - by destruct s.
  - destruct (Ascii.ascii_dec c c); [done | congruence].
Qed.

Lemma prefix_inv (p s : string) :
  String.prefix p s = true → ∃ post, s = p +:+ post.
Proof.
  revert s. induction p as [|c p IH]; intros s H.
  - by exists s.
  - destruct s as [|c' s]; [done |]. simpl in H.
    destruct (Ascii.ascii_dec c c') as [->|]; [| done].
    destruct (IH _ H) as [post ->]. by exists post.
Qed.

Lemma includes_app (pre needle post : string) :
  includes (pre +:+ needle +:+ post) needle = true.
Proof.
  induction pre as [|c pre IH].
  - pose proof (prefix_app needle post) as H.
    change ("" +:+ needle +:+ post) with (needle +:+ post).
    destruct (needle +:+ post); cbn [includes]; by rewrite H.
  - simpl. rewrite IH. apply orb_true_r.
Qed.

Lemma includes_inv (s needle : string) :
  includes s needle = true → ∃ pre post, s = pre +:+ needle +:+ post.
Proof.
  induction s as [|c s IH]; cbn [includes]; intros H.
  - rewrite orb_false_r in H. destruct (prefix_inv _ _ H) as [post ->].
    by exists EmptyString, post.
  - apply orb_true_iff in H as [H|H].
    + destruct (prefix_inv _ _ H) as [post ->]. by exists EmptyString, post.
    + destruct (IH H) as (pre & post & ->). by exists (String c pre), post.
Qed.




(** The matcher at one position accepts exactly the strings that start
    with the pattern in some letter case. *)
Lemma append_cons (c : ascii) (a b : string) :
  String c a +:+ b = String c (a +:+ b).
Proof. done. Qed.






End JS_facts.

(** ** The script loader *)

Section loadScript.
Import JS RevealMath.




Lemma loadScript_callback url callback w :
  callbacks (loadScript url callback w).1 !! fresh_script w = Some callback.
Proof.
  unfold loadScript.
  destruct (List.find _ _); simpl; [| apply lookup_insert_eq].
  destruct (DOM.attach _ _ _); simpl; apply lookup_insert_eq.
Qed.



End loadScript.

(** ** The configuration of the engine *)

Section configuration.
Import JS RevealMath.






End configuration.

(** ** The height check and the title *)

Section height_and_title.
Import JS RevealPrint.

Lemma append_assoc (a b c : string) : (a +:+ b) +:+ c = a +:+ b +:+ c.
Proof.
  induction a as [|x a IH]; [done |].
  rewrite !JS_facts.append_cons. by f_equal.
Qed.

Lemma too_high_slide w : includes (too_high w) (ToString (slideNumber w)) = true.
Proof. apply JS_facts.includes_app. Qed.

Lemma too_high_overflow w :
  includes (too_high w)
    (Number_toString (currentSlide_clientHeight w - config_height w)) = true.
Proof.
  unfold too_high.
  rewrite <- (append_assoc (ToString _)), <- (append_assoc "slide ").
  apply JS_facts.includes_app.
Qed.

Lemma append_nil_r (s : string) : s +:+ "" = s.
Proof. induction s as [|c s IH]; [done |]. by rewrite JS_facts.append_cons, IH. Qed.

Lemma includes_refl (s : string) : includes s s = true.
Proof.
  pose proof (JS_facts.includes_app "" s "") as H.
  by rewrite append_nil_r in H.
Qed.

Lemma includes_trans (s t n : string) :
  includes s n = true → includes t s = true → includes t n = true.
Proof.
  intros (a & b & ->)%JS_facts.includes_inv (c & d & ->)%JS_facts.includes_inv.
  rewrite !append_assoc, <- (append_assoc c a).
  apply JS_facts.includes_app.
Qed.

(** The number of the slide holds the horizontal index, counted from
    one, and for a vertical slide the vertical index as well. *)
Lemma slideNumber_coordinates w :
  includes (ToString (slideNumber w)) (Number_toString (indices_h w + 1)) = true ∧
  ((0 < indices_v w)%Z →
     includes (ToString (slideNumber w)) (Number_toString (indices_v w + 1)) = true).
Proof.
  unfold slideNumber. destruct (Z.ltb_spec 0 (indices_v w)) as [Hv|Hv]; cbn [ToString].
  - split; [apply JS_facts.includes_app |]. intros _.
    rewrite <- (append_assoc (Number_toString _) ", v:"), <- (append_assoc "(h:").
    apply JS_facts.includes_app.
  - split; [| lia].
    apply includes_refl.
Qed.

(** C6.  [checkHeight] writes one error to the console when the height
    of the current slide is above the configured height, and nothing
    otherwise; it changes nothing else.  The message holds the number of
    the slide as [slideNumber] gives it and the difference of the two
    heights; with the configured height 700 and a slide of height 750 it
    holds [50]. *)
Theorem checkHeight_reports_overflow w :
  let configHeight := config_height w in
  let slideHeight := currentSlide_clientHeight w in
  (console (checkHeight w) = (console w ++ [(Error, too_high w)])%list
     ↔ (configHeight < slideHeight)%Z) ∧
  (console (checkHeight w) = console w ↔ ¬ (configHeight < slideHeight)%Z) ∧
  checkHeight w = set_console (console (checkHeight w)) w ∧
  includes (too_high w) (ToString (slideNumber w)) = true ∧
  includes (too_high w) (Number_toString (indices_h w + 1)) = true ∧
  ((0 < indices_v w)%Z →
     includes (too_high w) (Number_toString (indices_v w + 1)) = true) ∧
  includes (too_high w) (Number_toString (slideHeight - configHeight)) = true ∧
  (configHeight = 700%Z → slideHeight = 750%Z →
     console (checkHeight w) = (console w ++ [(Error, too_high w)])%list ∧
     includes (too_high w) "50" = true).
Proof.
  intros configHeight slideHeight.
  assert (∀ x : level * string, (console w ++ [x])%list ≠ console w) as Hne.
  { intros x Hx. apply (f_equal List.length) in Hx.
    rewrite length_app in Hx. simpl in Hx. lia. }
  destruct (slideNumber_coordinates w) as [Hh Hv].
  assert (includes (too_high w) (Number_toString (indices_h w + 1)) = true) as Hh'.
  { eapply includes_trans; [exact Hh | apply too_high_slide]. }
  assert ((0 < indices_v w)%Z →
          includes (too_high w) (Number_toString (indices_v w + 1)) = true) as Hv'.
  { intros H. eapply includes_trans; [by apply Hv | apply too_high_slide]. }
  unfold checkHeight. fold configHeight slideHeight.
  destruct (Z.ltb_spec configHeight slideHeight) as [Hlt|Hge]; simpl.
  - split_and!; try done.
    + split; [intros Hx; by apply Hne in Hx | done].
    + apply too_high_slide.
    + apply too_high_overflow.
    + intros Hc Hs. split; [done |].
      pose proof (too_high_overflow w) as Ho.
      fold configHeight slideHeight in Ho. by rewrite Hc, Hs in Ho.
  - split_and!; try done.
    + split; [intros Hx; symmetry in Hx; by apply Hne in Hx | lia].
    + split; [lia | done].
    + by destruct w.
    + apply too_high_slide.
    + apply too_high_overflow.
    + lia.
Qed.

(** The scenario of C6: height 700, a slide of height 750, the third
    slide. *)
Lemma checkHeight_reports_overflow_scenario :
  console (checkHeight (Examples.with_slide 750 2 0
             (Examples.page Examples.empty_deck "/deck.html" "")))
  = [(Error, "slide 3 is 50px too high")].
Proof.
  pose proof (checkHeight_reports_overflow (Examples.with_slide 750 2 0
             (Examples.page Examples.empty_deck "/deck.html" ""))) as H.
  cbv zeta in H. destruct H as (_ & _ & _ & _ & _ & _ & _ & H).
  destruct (H eq_refl eq_refl) as [Hc _]. rewrite Hc. reflexivity.
Defined.

(** C2 is not what the code does: [setupTitle] cuts the file name at
    the index that the last dot has in the whole path, which lies beyond
    the dot of the file name when the path has a directory.  For
    [/deck/lecture-3.html] the title keeps the extension. *)
Theorem setupTitle_keeps_extension w :
  pathname w = "/deck/lecture-3.html" →
  title (setupTitle w) = "lecture-3.htmlpdf".
Proof. intros H. unfold setupTitle. rewrite H. reflexivity. Qed.

Lemma setupTitle_keeps_extension_scenario :
  title (setupTitle (Examples.page Examples.empty_deck "/deck/lecture-3.html" "?print-pdf"))
  = "lecture-3.htmlpdf".
Proof. apply setupTitle_keeps_extension. reflexivity. Defined.

(** Without a directory the index is one too far and takes the dot. *)
Lemma setupTitle_at_root w :
  pathname w = "/lecture-3.html" → title (setupTitle w) = "lecture-3.pdf".
Proof. intros H. unfold setupTitle. rewrite H. reflexivity. Qed.

End height_and_title.

(** ** The document *)

Module DOM_facts.
Import DOM.

Lemma annotate_fst {A} (step : A → element → A) a d :
  (annotate step a d).*1 = elements d.
Proof.
  revert a.
  induction d as [|s r IHr|e c IHc r IHr]; intros a; simpl; [done | apply IHr |].
  rewrite !fmap_app. f_equal. by rewrite IHc, IHr.
Qed.

Lemma elements_Elem e c r : elements (Elem e c r) = e :: elements c ++ elements r.
Proof. done. Qed.

Lemma elements_Text s r : elements (Text s r) = elements r.
Proof. done. Qed.

Lemma elements_append a b : elements (append a b) = elements a ++ elements b.
Proof.
  induction a as [|s r IHr|e c IHc r IHr]; simpl; [done | done |].
  by rewrite IHr, app_assoc.
Qed.

Lemma annotate_in_elements {A} (step : A → element → A) a d e x :
  (e, x) ∈ annotate step a d → e ∈ elements d.
Proof.
  intros H. rewrite <- (annotate_fst step a).
  apply list_elem_of_fmap. by exists (e, x).
Qed.

(** *** Changes of the elements in place *)

Lemma annotate_dmap {A} (step : A → element → A) g (φ : A → A) a d :
  (∀ a e, step (φ a) (g e) = φ (step a e)) →
  annotate step (φ a) (dmap g d) = prod_map g φ <$> annotate step a d.
Proof.
  intros Hstep. revert a.
  induction d as [|s r IHr|e c IHc r IHr]; intros a; simpl; [done | apply IHr |].
  rewrite fmap_app, Hstep, IHc, IHr. done.
Qed.

Lemma elements_dmap g d : elements (dmap g d) = g <$> elements d.
Proof.
  induction d as [|s r IHr|e c IHc r IHr]; simpl; [done | done |].
  by rewrite fmap_app, IHc, IHr.
Qed.

Lemma dmap_ext_in g h d :
  (∀ e, e ∈ elements d → g e = h e) → dmap g d = dmap h d.
Proof.
  induction d as [|s r IHr|e c IHc r IHr]; simpl; intros H; [done | |].
  - f_equal. apply IHr. intros e He. by apply H.
  - rewrite ?elements_Elem in H. f_equal.
    + apply H. left.
    + apply IHc. intros x Hx. apply H. right. apply elem_of_app. by left.
    + apply IHr. intros x Hx. apply H. right. apply elem_of_app. by right.
Qed.

Lemma dmap_dmap g h d : dmap g (dmap h d) = dmap (g ∘ h) d.
Proof. induction d; simpl; congruence. Qed.

Lemma dmap_id_in g d : (∀ e, e ∈ elements d → g e = e) → dmap g d = d.
Proof.
  intros H. transitivity (dmap (λ e, e) d).
  - by apply dmap_ext_in.
  - clear. induction d; simpl; congruence.
Qed.

Lemma uids_dmap g d :
  (∀ e, el_uid (g e) = el_uid e) →
  el_uid <$> elements (dmap g d) = el_uid <$> elements d.
Proof.
  intros H. rewrite elements_dmap, <- list_fmap_compose.
  apply list_fmap_ext. intros ? e _. apply H.
Qed.

Lemma wf_dmap g d : (∀ e, el_uid (g e) = el_uid e) → wf d → wf (dmap g d).
Proof. intros H. unfold wf. by rewrite uids_dmap. Qed.

(** In a tree, an element is known by its node. *)
Lemma wf_uid_inj d e1 e2 :
  wf d → e1 ∈ elements d → e2 ∈ elements d → el_uid e1 = el_uid e2 → e1 = e2.
Proof.
  unfold wf. intros Hwf H1 H2 Hu.
  apply list_elem_of_lookup in H1 as [i Hi], H2 as [j Hj].
  assert (i = j) as ->; [| congruence].
  eapply NoDup_lookup; [done | |]; rewrite list_lookup_fmap.
  - by rewrite Hi.
  - rewrite Hj. simpl. by rewrite Hu.
Qed.

Lemma find_uid_fmap {A} g (φ : A → A) u (l : list (element * A)) :
  (∀ e, el_uid (g e) = el_uid e) →
  find_uid u (prod_map g φ <$> l) = prod_map g φ <$> find_uid u l.
Proof.
  intros H. unfold find_uid.
  induction l as [|[e a] l IH]; simpl; [done |].
  rewrite H. by case_bool_decide.
Qed.

Lemma find_uid_Some {A} u (l : list (element * A)) x :
  find_uid u l = Some x → x ∈ l ∧ el_uid x.1 = u.
Proof.
  unfold find_uid. intros H. apply find_some in H as [H1 H2].
  split; [by apply list_elem_of_In | by apply bool_decide_eq_true in H2].
Qed.

Lemma closest_section_dmap g u d :
  keeps_identity g →
  closest_section u (dmap g d) = g <$> closest_section u d.
Proof.
  intros Hg. unfold closest_section.
  assert (∀ a e, nearest_section (g <$> a) (g e) = g <$> nearest_section a e) as Hstep.
  { intros a e. unfold nearest_section, is_section.
    destruct (Hg e) as (_ & _ & -> & _). by case_bool_decide. }
  pose proof (annotate_dmap nearest_section g (fmap g) None d Hstep) as Ha.
  simpl in Ha. rewrite Ha.
  rewrite find_uid_fmap by (intros; apply Hg).
  destruct (find_uid u _) as [[e a]|]; simpl; [apply Hstep | done].
Qed.

Lemma find_fmap {A B} (f : A → B) (P : B → bool) (l : list A) :
  List.find P (f <$> l) = f <$> List.find (P ∘ f) l.
Proof. induction l as [|x l IH]; simpl; [done |]. by destruct (P (f x)). Qed.

Lemma find_ext' {A} (P Q : A → bool) (l : list A) :
  (∀ x, P x = Q x) → List.find P l = List.find Q l.
Proof. intros H. induction l as [|x l IH]; simpl; [done |]. by rewrite H, IH. Qed.

Lemma getElementById_dmap g label d :
  keeps_identity g →
  getElementById label (dmap g d) = g <$> getElementById label d.
Proof.
  intros Hg. unfold getElementById. case_decide; [done |].
  rewrite elements_dmap, find_fmap. f_equal.
  apply find_ext'. intros e. simpl. by destruct (Hg e) as (_ & _ & _ & ->).
Qed.

Lemma filter_fmap_comm {A} (P : A → Prop) `{∀ x, Decision (P x)} (g : A → A) (l : list A) :
  (∀ x, P (g x) ↔ P x) → filter P (g <$> l) = g <$> filter P l.
Proof.
  intros HP. induction l as [|x l IH]; [done |].
  rewrite fmap_cons, !filter_cons.
  destruct (decide (P (g x))) as [Hx|Hx]; destruct (decide (P x)) as [Hx'|Hx'];
    rewrite IH; [done | destruct Hx'; by apply HP | destruct Hx; by apply HP | done].
Qed.

Lemma getElementsByTagName_dmap g name d :
  keeps_identity g →
  getElementsByTagName name (dmap g d) = g <$> getElementsByTagName name d.
Proof.
  intros Hg. unfold getElementsByTagName.
  rewrite elements_dmap. apply filter_fmap_comm.
  intros e. by destruct (Hg e) as (_ & _ & -> & _).
Qed.

(** What [closest] finds is a [section] element of the document. *)
Lemma nearest_section_found a0 d e a s :
  (e, a) ∈ annotate nearest_section a0 d → a = Some s →
  a0 = Some s ∨ (s ∈ elements d ∧ is_section s = true).
Proof.
  revert a0. induction d as [|t r IHr|x c IHc r IHr]; intros a0; simpl.
  - by intros ?%elem_of_nil.
  - intros H Ha. destruct (IHr _ H Ha) as [|[]]; [by left | right].
    done.
  - rewrite ?elements_Elem.
    intros [H|[H|H]%elem_of_app]%elem_of_cons Ha.
    + simplify_eq. by left.
    + destruct (IHc _ H Ha) as [Hs|[Hs1 Hs2]].
      * unfold nearest_section in Hs. destruct (is_section x) eqn:Hx.
        -- simplify_eq. right. split; [left | done].
        -- by left.
      * right. split; [| done]. right. apply elem_of_app. by left.
    + destruct (IHr _ H Ha) as [Hs|[Hs1 Hs2]]; [by left |].
      right. split; [| done]. right. apply elem_of_app. by right.
Qed.

Lemma closest_section_found u d s :
  closest_section u d = Some s → s ∈ elements d ∧ is_section s = true.
Proof.
  unfold closest_section.
  destruct (find_uid u _) as [[e a]|] eqn:Hf; [| done].
  apply find_uid_Some in Hf as [Hin _].
  unfold nearest_section. destruct (is_section e) eqn:He.
  - intros [= <-]. split; [| done]. by eapply annotate_in_elements.
  - intros Ha. by destruct (nearest_section_found _ _ _ _ _ Hin Ha) as [|].
Qed.

End DOM_facts.

(** ** Loops *)

Section loop_facts.
Context {St A : Type}.
Implicit Types (coll : St → list A) (body : A → St → St * completion).

(** A loop over a live collection that its body leaves as it is beyond
    the current index is the loop over the collection as it was. *)
Lemma for_live_for_each (Inv : St → Prop) coll body :
  (∀ st i x st', Inv st → coll st !! i = Some x → body x st = (st', Normal) →
     Inv st' ∧ length (coll st') = length (coll st) ∧
     ∀ j, i < j → coll st' !! j = coll st !! j) →
  ∀ fuel i st, Inv st → length (coll st) ≤ i + fuel →
    for_live fuel coll body i st = for_each (drop i (coll st)) body st.
Proof.
  intros Hbody fuel. induction fuel as [|fuel IH]; intros i st HI Hlen.
  - assert (coll st !! i = None) as Hi by (apply lookup_ge_None; lia).
    simpl. rewrite Hi, drop_ge; [done | lia].
  - simpl. destruct (coll st !! i) as [x|] eqn:Hi.
    + rewrite (drop_S _ _ _ Hi). simpl.
      destruct (body x st) as [st' []] eqn:Hb; try done.
      destruct (Hbody _ _ _ _ HI Hi Hb) as (HI' & Hl & Hj).
      rewrite IH by (done || lia). f_equal.
      apply list_eq. intros k. rewrite !lookup_drop. apply Hj. lia.
    + apply lookup_ge_None in Hi. by rewrite drop_ge.
Qed.

(** A loop whose body ends normally and keeps [Inv] ends normally and
    keeps [Inv], when [size] bounds the collection and does not grow. *)
Lemma for_live_normal (Inv : St → Prop) (size : St → nat) coll body :
  (∀ st, Inv st → length (coll st) ≤ size st) →
  (∀ st i x, Inv st → coll st !! i = Some x →
     ∃ st', body x st = (st', Normal) ∧ Inv st' ∧ size st' ≤ size st) →
  ∀ fuel i st, Inv st → size st ≤ i + fuel →
    ∃ st', for_live fuel coll body i st = (st', Normal) ∧ Inv st'.
Proof.
  intros Hsize Hbody fuel. induction fuel as [|fuel IH]; intros i st HI Hlen.
  - assert (coll st !! i = None) as Hi.
    { apply lookup_ge_None. specialize (Hsize _ HI). lia. }
    exists st. simpl. by rewrite Hi.
  - simpl. destruct (coll st !! i) as [x|] eqn:Hi; [| by exists st].
    destruct (Hbody _ _ _ HI Hi) as (st' & -> & HI' & Hle).
    apply IH; [done | lia].
Qed.

Lemma for_each_normal (Inv : St → Prop) (items : list A) body :
  (∀ st x, Inv st → x ∈ items → ∃ st', body x st = (st', Normal) ∧ Inv st') →
  ∀ st, Inv st → ∃ st', for_each items body st = (st', Normal) ∧ Inv st'.
Proof.
  induction items as [|x items IH]; intros Hbody st HI; [by exists st |].
  simpl. destruct (Hbody st x HI) as (st' & -> & HI'); [left |].
  apply IH; [| done]. intros st1 y HI1 Hy. apply Hbody; [done | by right].
Qed.
End loop_facts.

(** ** Link fixup *)

Module fixLinks_facts.
Import DOM DOM_facts RevealMath.

Lemma get_set_baseVal v e : get_baseVal (set_baseVal v e) = v.
Proof.
  unfold get_baseVal, set_baseVal.
  destruct (attributes e !! "href") eqn:Hh; simpl.
  - by rewrite lookup_insert_eq.
  - destruct (attributes e !! "xlink:href") eqn:Hx; simpl.
    + rewrite lookup_insert_ne by done. by rewrite Hh, lookup_insert_eq.
    + by rewrite lookup_insert_eq.
Qed.

Lemma set_baseVal_keeps v e :
  el_uid (set_baseVal v e) = el_uid e ∧
  namespaceURI (set_baseVal v e) = namespaceURI e ∧
  localName (set_baseVal v e) = localName e ∧
  attributes (set_baseVal v e) !! "id" = attributes e !! "id".
Proof.
  unfold set_baseVal.
  destruct (attributes e !! "href"), (attributes e !! "xlink:href"); simpl;
    by rewrite lookup_insert_ne.
Qed.

Lemma fixed_keeps d e :
  el_uid (fixed d e) = el_uid e ∧
  namespaceURI (fixed d e) = namespaceURI e ∧
  localName (fixed d e) = localName e ∧
  attributes (fixed d e) !! "id" = attributes e !! "id".
Proof. unfold fixed. destruct (link_action d e); try done. apply set_baseVal_keeps. Qed.

Lemma fix_those_keeps d turn : keeps_identity (fix_those d turn).
Proof.
  intros e. unfold fix_those. case_decide; [apply fixed_keeps | done].
Qed.

Lemma update_keeps u v :
  keeps_identity (λ e, if decide (el_uid e = u) then set_baseVal v e else e).
Proof. intros e. case_decide; [apply set_baseVal_keeps | done]. Qed.

Lemma id_of_keeps g e : keeps_identity g → id_of (g e) = id_of e.
Proof. intros Hg. unfold id_of. by destruct (Hg e) as (_ & _ & _ & ->). Qed.

Lemma slide_of_dmap g d label :
  keeps_identity g → slide_of (dmap g d) label = slide_of d label.
Proof.
  intros Hg. unfold slide_of.
  rewrite getElementById_dmap by done.
  destruct (getElementById label d) as [eqn|]; simpl; [| done].
  destruct (Hg eqn) as (-> & _).
  rewrite closest_section_dmap by done.
  destruct (closest_section (el_uid eqn) d) as [s|]; simpl; [| done].
  by rewrite id_of_keeps.
Qed.

Lemma link_action_dmap g d a :
  keeps_identity g → link_action (dmap g d) a = link_action d a.
Proof.
  intros Hg. unfold link_action.
  destruct (href a) as [|label|]; try done.
  case_decide; [done |]. destruct (JS.includes label marker); [| done].
  destruct (JS.decodeURIComponent _); [| done].
  by rewrite slide_of_dmap.
Qed.

(** The body of the loop, by what it does with the anchor. *)
Lemma fixLink_action a d :
  fixLink a d =
  match link_action d a with
  | Skip => (d, Normal)
  | Rewrite v => (update (el_uid a) (set_baseVal v) d, Normal)
  | Raise e => (d, Throw e)
  end.
Proof.
  unfold fixLink, link_action, slide_of.
  destruct (href a) as [|label|]; try done.
  case_decide; [done |]. destruct (JS.includes label marker); [| done].
  destruct (JS.decodeURIComponent _); [| done].
  destruct (getElementById _ d) as [eqn|]; [| done].
  by destruct (closest_section _ d).
Qed.

Lemma slide_of_found d label v :
  slide_of d label = Some v →
  ∃ s, s ∈ elements d ∧ is_section s = true ∧ v = "#" +:+ id_of s.
Proof.
  unfold slide_of. destruct (getElementById label d) as [eqn|]; [| done].
  destruct (closest_section _ d) as [s|] eqn:Hs; [| done].
  intros [= <-]. exists s. by destruct (closest_section_found _ _ _ Hs).
Qed.

Lemma anchors_in_elements name d a :
  a ∈ getElementsByTagName name d → a ∈ elements d.
Proof. unfold getElementsByTagName. by intros [_ ?]%list_elem_of_filter. Qed.

Lemma anchors_NoDup name d :
  wf d → NoDup (el_uid <$> getElementsByTagName name d).
Proof.
  intros Hwf. eapply sublist_NoDup; [exact Hwf |].
  apply fmap_sublist, sublist_filter.
Qed.

(** *** The loop in closed form *)

Lemma fix_those_snoc d turn a e :
  wf d → a ∈ elements d → e ∈ elements d → el_uid a ∉ turn →
  fix_those d (turn ++ [el_uid a]) e =
  if decide (el_uid e = el_uid a) then fixed d a else fix_those d turn e.
Proof.
  intros Hwf Ha He Hturn. unfold fix_those.
  destruct (decide (el_uid e = el_uid a)) as [Hu|Hu].
  - assert (e = a) as -> by (by apply (wf_uid_inj d)).
    by rewrite decide_True by (apply elem_of_app; right; left).
  - destruct (decide (el_uid e ∈ turn)) as [Ht|Ht].
    + by rewrite decide_True by (apply elem_of_app; by left).
    + rewrite decide_False; [done |].
      intros [?|?%list_elem_of_singleton]%elem_of_app; done.
Qed.

Lemma fix_those_other d turn e : el_uid e ∉ turn → fix_those d turn e = e.
Proof. intros H. unfold fix_those. by rewrite decide_False. Qed.

Lemma run_from d anchors turn :
  wf d →
  NoDup (turn ++ (el_uid <$> anchors)) →
  (∀ a, a ∈ anchors → a ∈ elements d) →
  for_each anchors fixLink (dmap (fix_those d turn) d)
  = (dmap (fix_those d (turn ++ (el_uid <$> processed d anchors))) d,
     outcome d anchors).
Proof.
  intros Hwf. revert turn.
  induction anchors as [|a anchors IH]; intros turn Hnd Hin.
  - simpl. by rewrite app_nil_r.
  - assert (a ∈ elements d) as Ha by (apply Hin; left).
    assert (el_uid a ∉ turn) as Hturn.
    { apply NoDup_app in Hnd as (_ & Hnd & _). intros Hu.
      apply (Hnd _ Hu). left. }
    assert (NoDup ((turn ++ [el_uid a]) ++ (el_uid <$> anchors))) as Hnd'.
    { by rewrite <- app_assoc. }
    simpl. rewrite fixLink_action, link_action_dmap by apply fix_those_keeps.
    destruct (link_action d a) as [|v|e] eqn:Hact; simpl.
    + assert (dmap (fix_those d turn) d = dmap (fix_those d (turn ++ [el_uid a])) d) as ->.
      { apply dmap_ext_in. intros e He. rewrite fix_those_snoc by done.
        case_decide as Hu; [| done].
        assert (e = a) as -> by (by apply (wf_uid_inj d)).
        rewrite fix_those_other by done. unfold fixed. by rewrite Hact. }
      rewrite IH; [| done | intros; apply Hin; by right].
      by rewrite <- app_assoc.
    + assert (update (el_uid a) (set_baseVal v) (dmap (fix_those d turn) d)
              = dmap (fix_those d (turn ++ [el_uid a])) d) as ->.
      { unfold update. rewrite dmap_dmap. apply dmap_ext_in. intros e He. simpl.
        rewrite fix_those_snoc by done.
        pose proof (fix_those_keeps d turn e) as (Hk & _).
        destruct (decide (el_uid (fix_those d turn e) = el_uid a)) as [Hu|Hu];
          rewrite Hk in Hu.
        - assert (e = a) as -> by (by apply (wf_uid_inj d)).
          rewrite decide_True by done. rewrite fix_those_other by done.
          unfold fixed. by rewrite Hact.
        - by rewrite decide_False. }
      rewrite IH; [| done | intros; apply Hin; by right].
      by rewrite <- app_assoc.
    + by rewrite app_nil_r.
Qed.

(** On a tree [fixLinks] gives every anchor before the first one that
    throws its turn, and ends as the first one that throws does. *)
Lemma fixLinks_closed_form d :
  wf d →
  fixLinks d =
  (dmap (fix_those d (el_uid <$> processed d (getElementsByTagName "a" d))) d,
   outcome d (getElementsByTagName "a" d)).
Proof.
  intros Hwf. unfold fixLinks.
  rewrite (for_live_for_each wf).
  - rewrite drop_0.
    rewrite <- (dmap_id_in (fix_those d []) d) at 2.
    + rewrite run_from; [done | done | by apply anchors_NoDup |].
      intros a. apply anchors_in_elements.
    + intros e _. apply fix_those_other, not_elem_of_nil.
  - clear d Hwf. intros d i a d' Hwf Hi Hbody.
    rewrite fixLink_action in Hbody.
    assert (∀ g, keeps_identity g →
              (∀ e, el_uid e ≠ el_uid a → g e = e) →
              wf (dmap g d) ∧
              length (getElementsByTagName "a" (dmap g d)) = length (getElementsByTagName "a" d) ∧
              ∀ j, i < j → getElementsByTagName "a" (dmap g d) !! j = getElementsByTagName "a" d !! j)
      as Hkeep.
    { intros g Hg Hother. split; [apply wf_dmap; [intros; apply Hg | done] |].
      rewrite getElementsByTagName_dmap by done. split; [by rewrite length_fmap |].
      intros j Hj. rewrite list_lookup_fmap.
      destruct (getElementsByTagName "a" d !! j) as [b|] eqn:Hb; [| done].
      simpl. f_equal. apply Hother. intros Hu.
      assert (j = i); [| lia].
      eapply (NoDup_lookup _ _ _ _ (anchors_NoDup "a" d Hwf));
        rewrite list_lookup_fmap; [by rewrite Hb | by rewrite Hi, Hu]. }
    destruct (link_action d a) as [|v|e]; simplify_eq.
    + split; [done |]. split; [done |]. done.
    + apply Hkeep; [apply update_keeps |]. intros e He. by rewrite decide_False.
  - done.
  - simpl. unfold getElementsByTagName. apply length_filter.
Qed.

(** *** A second run *)

Lemma processed_in d anchors a :
  a ∈ processed d anchors → a ∈ anchors ∧ ∀ e, link_action d a ≠ Raise e.
Proof.
  induction anchors as [|b anchors IH]; simpl; [by intros ?%elem_of_nil |].
  destruct (link_action d b) eqn:Hb; [| | by intros ?%elem_of_nil];
    (intros [->|H]%elem_of_cons;
     [split; [left | congruence] | destruct (IH H); split; [by right | done]]).
Qed.

Lemma outcome_Normal d anchors :
  outcome d anchors = Normal → processed d anchors = anchors.
Proof.
  induction anchors as [|b anchors IH]; simpl; [done |].
  destruct (link_action d b); intros H; try done; by rewrite IH.
Qed.

Lemma processed_dmap g d anchors :
  keeps_identity g → processed (dmap g d) anchors = processed d anchors.
Proof.
  intros Hg. induction anchors as [|b anchors IH]; simpl; [done |].
  by rewrite link_action_dmap, IH.
Qed.

Lemma outcome_dmap g d anchors :
  keeps_identity g → outcome (dmap g d) anchors = outcome d anchors.
Proof.
  intros Hg. induction anchors as [|b anchors IH]; simpl; [done |].
  by rewrite link_action_dmap, IH.
Qed.

Lemma second_run d (g : element → element) anchors :
  NoDup anchors →
  (∀ a, a ∈ processed d anchors → link_action d (g a) = Skip) →
  (∀ a, a ∈ anchors → a ∉ processed d anchors → g a = a) →
  outcome d (g <$> anchors) = outcome d anchors ∧
  processed d (g <$> anchors) = g <$> processed d anchors.
Proof.
  induction anchors as [|a anchors IH]; intros Hnd Hskip Hsame; [done |].
  apply NoDup_cons in Hnd as [Ha Hnd].
  rewrite fmap_cons. cbn [outcome processed] in *.
  destruct (link_action d a) eqn:Hact.
  1,2: rewrite Hskip by left;
       destruct IH as [IH1 IH2];
         [done
         | intros b Hb; apply Hskip; by right
         | intros b Hb Hnb; apply Hsame; [by right |];
           intros [->|?]%elem_of_cons; done
         | by rewrite IH1, IH2].
  rewrite Hsame by (left || apply not_elem_of_nil). by rewrite Hact.
Qed.

Lemma link_action_Rewrite d a v :
  link_action d a = Rewrite v →
  namespaceURI a = SVG ∧ ∃ label, slide_of d label = Some v.
Proof.
  unfold link_action, href. destruct (namespaceURI a); try done.
  case_decide; [done |]. destruct (JS.includes _ marker); [| done].
  destruct (JS.decodeURIComponent _) as [label|]; [| done].
  destruct (slide_of d label) eqn:Hs; [| done].
  intros [= <-]. eauto.
Qed.

(** An anchor that had its turn is left alone by a second run, when no
    slide has an identifier that reads as the address of an equation. *)
Lemma fixed_is_fixed d a :
  plain_slide_ids d → (∀ e, link_action d a ≠ Raise e) →
  link_action d (fixed d a) = Skip.
Proof.
  intros Hplain Hraise. unfold fixed.
  destruct (link_action d a) as [|v|e] eqn:Hact; [done | | by destruct (Hraise e)].
  destruct (link_action_Rewrite _ _ _ Hact) as (Hns & label & Hslide).
  destruct (slide_of_found _ _ _ Hslide) as (s & Hs & Hsec & ->).
  unfold plain_slide_ids in Hplain. rewrite Forall_forall in Hplain.
  unfold link_action, href.
  destruct (set_baseVal_keeps ("#" +:+ id_of s) a) as (_ & -> & _).
  rewrite Hns, get_set_baseVal.
  case_decide; [done |]. by rewrite (Hplain s Hs Hsec).
Qed.

End fixLinks_facts.

Section fixLinks.
Import DOM DOM_facts RevealMath fixLinks_facts.

(** C9.  On a tree [fixLinks] changes elements in place and nothing
    else: an element that it changes is an [a] element whose [href] has
    a non-empty [baseVal], and what changes is that [baseVal]; an anchor
    whose [href] is a string stays as it is whatever its fragment. *)
Theorem fixLinks_changes_only_baseVal d :
  wf d →
  ∃ g, (fixLinks d).1 = dmap g d ∧
    ∀ e, e ∈ elements d →
      (g e = e ∨
       (localName e = "a" ∧
        ∃ label v, href e = href_animated label ∧ label ≠ "" ∧ g e = set_baseVal v e)) ∧
      (href e = href_string → g e = e ∧ e ∈ elements (fixLinks d).1).
Proof.
  intros Hwf. rewrite fixLinks_closed_form by done. simpl.
  set (turn := el_uid <$> processed d (getElementsByTagName "a" d)).
  exists (fix_those d turn). split; [done |]. intros e He.
  assert (fix_those d turn e = e ∨
          localName e = "a" ∧
          ∃ label v, href e = href_animated label ∧ label ≠ "" ∧
                     fix_those d turn e = set_baseVal v e) as Hcases.
  { unfold fix_those. case_decide as Hturn; [| by left].
    apply list_elem_of_fmap in Hturn as (a & Hu & Ha).
    apply processed_in in Ha as [Ha _].
    assert (e = a) as <-.
    { apply (wf_uid_inj d); [done | done | by eapply anchors_in_elements | done]. }
    unfold fixed, link_action.
    destruct (href e) as [|label|] eqn:Hhref; [by left | | by left].
    case_decide; [by left |]. destruct (JS.includes label marker); [| by left].
    destruct (JS.decodeURIComponent _); [| by left].
    destruct (slide_of d _) as [v|]; [| by left].
    right. split; [| by exists label, v].
    unfold getElementsByTagName in Ha. by apply list_elem_of_filter in Ha as [? _]. }
  split; [done |]. intros Hs.
  assert (fix_those d turn e = e) as Hsame.
  { destruct Hcases as [|(_ & label & v & Hl & _)]; [done | congruence]. }
  split; [done |].
  rewrite elements_dmap. apply list_elem_of_fmap. by exists e.
Qed.

(** An HTML anchor with the fragment of an equation stays as it is. *)
Lemma fixLinks_changes_only_baseVal_scenario :
  wf (Examples.equation_link HTML) ∧
  Examples.the_anchor HTML ∈ elements (fixLinks (Examples.equation_link HTML)).1.
Proof.
  assert (wf (Examples.equation_link HTML)) as Hwf.
  { by_compute. }
  split; [done |].
  destruct (fixLinks_changes_only_baseVal _ Hwf) as (g & _ & Hg).
  apply (Hg (Examples.the_anchor HTML)); [| done].
  in_list.
Defined.

(** C5, as stated, fails for the anchors of HTML: the fragment stays. *)
Lemma fixLinks_leaves_html_anchor :
  let d := Examples.equation_link HTML in
  (∃ eqn s, getElementById "mjx-eqn:3" d = Some eqn ∧
            closest_section (el_uid eqn) d = Some s ∧ id_of s = "slide-7") ∧
  Examples.the_anchor HTML ∈ elements d ∧
  attributes (Examples.the_anchor HTML) !! "href" = Some "#mjx-eqn:3" ∧
  fixLinks d = (d, Normal) ∧
  ¬ ∃ a, a ∈ elements (fixLinks d).1 ∧ attributes a !! "href" = Some "#slide-7".
Proof.
  split_and!.
  - eexists _, _. split_and!; [by vm_compute | by vm_compute | by vm_compute].
  - in_list.
  - by vm_compute.
  - by vm_compute.
  - intros (a & Ha & Hhref).
    assert (fixLinks (Examples.equation_link HTML) = (Examples.equation_link HTML, Normal))
      as Hrun by (by vm_compute).
    rewrite Hrun in Ha. simpl in Ha.
    apply list_elem_of_In in Ha. simpl in Ha.
    destruct Ha as [<-|[<-|[<-|[]]]]; by vm_compute in Hhref.
Qed.

(** C5, amended.  An SVG anchor whose [href.baseVal] is [#mjx-eqn:3],
    when the first element with identifier [mjx-eqn:3] has the slide
    [slide-7] as its nearest [section], has [#slide-7] after a run of
    [fixLinks] that ends normally. *)
Theorem fixLinks_addresses_slide d a eqn s :
  wf d →
  a ∈ elements d → localName a = "a" → namespaceURI a = SVG →
  get_baseVal a = "#mjx-eqn:3" →
  getElementById "mjx-eqn:3" d = Some eqn →
  closest_section (el_uid eqn) d = Some s →
  id_of s = "slide-7" →
  (fixLinks d).2 = Normal →
  set_baseVal "#slide-7" a ∈ elements (fixLinks d).1 ∧
  get_baseVal (set_baseVal "#slide-7" a) = "#slide-7".
Proof.
  intros Hwf Ha Hname Hns Hbase Heqn Hs Hid Hnormal.
  split; [| apply get_set_baseVal].
  rewrite fixLinks_closed_form in * by done. simpl in *.
  rewrite (outcome_Normal _ _ Hnormal).
  rewrite elements_dmap. apply list_elem_of_fmap. exists a. split; [| done].
  unfold fix_those. rewrite decide_True.
  - unfold fixed, link_action, href, slide_of. rewrite Hns, Hbase.
    change (JS.decodeURIComponent (JS.substring_from "#mjx-eqn:3" 1))
      with (Some "mjx-eqn:3").
    rewrite decide_False by done.
    change (JS.includes "#mjx-eqn:3" marker) with true.
    cbv iota. by rewrite Heqn, Hs, Hid.
  - apply list_elem_of_fmap_2. unfold getElementsByTagName.
    by apply list_elem_of_filter.
Qed.

Lemma fixLinks_addresses_slide_scenario :
  set_baseVal "#slide-7" (Examples.the_anchor SVG)
    ∈ elements (fixLinks (Examples.equation_link SVG)).1 ∧
  get_baseVal (set_baseVal "#slide-7" (Examples.the_anchor SVG)) = "#slide-7".
Proof.
  apply (fixLinks_addresses_slide (Examples.equation_link SVG) (Examples.the_anchor SVG)
           (Examples.el 2 HTML "span" [("id", "mjx-eqn:3")])
           (Examples.el 1 HTML "section" [("id", "slide-7")])).
  - by_compute.
  - in_list.
  - done.
  - done.
  - by vm_compute.
  - by vm_compute.
  - by vm_compute.
  - by vm_compute.
  - by vm_compute.
Defined.

(** C4, as stated, fails: a second run changes the link again when the
    identifier of the slide reads as the address of an equation. *)
Lemma fixLinks_twice_differs :
  let d := Examples.chained_slides in
  wf d ∧ (fixLinks (fixLinks d).1).1 ≠ (fixLinks d).1.
Proof.
  split; [by_compute |].
  intros H.
  apply (f_equal (λ d, get_baseVal <$> last (elements d))) in H.
  vm_compute in H. discriminate H.
Qed.

(** C4, amended.  On a tree in which no slide has an identifier that
    reads as the address of an equation ([#] and the identifier do not
    contain [#mjx-eqn]), a second run of [fixLinks] changes nothing and
    ends as the first. *)
Theorem fixLinks_idempotent d :
  wf d → plain_slide_ids d →
  fixLinks (fixLinks d).1 = fixLinks d.
Proof.
  intros Hwf Hplain.
  rewrite (fixLinks_closed_form d) by done. simpl.
  set (anchors := getElementsByTagName "a" d).
  set (turn := el_uid <$> processed d anchors).
  set (g := fix_those d turn).
  assert (keeps_identity g) as Hg by apply fix_those_keeps.
  assert (∀ e, el_uid (g e) = el_uid e) as Hguid by (intros; apply Hg).
  assert (∀ a, a ∈ processed d anchors → link_action d (g a) = Skip) as Hskip.
  { intros a Ha. unfold g, fix_those.
    rewrite decide_True by (by apply list_elem_of_fmap_2).
    apply fixed_is_fixed; [done |]. by apply processed_in in Ha as [_ ?]. }
  assert (NoDup anchors) as Hnd.
  { eapply NoDup_fmap_1, anchors_NoDup, Hwf. }
  destruct (second_run d g anchors Hnd Hskip) as [Hout Hproc].
  { intros a Ha Hna. apply fix_those_other.
    intros (b & Hu & Hb)%list_elem_of_fmap. destruct Hna.
    assert (a = b) as ->; [| done].
    apply (wf_uid_inj d); [done | | | done].
    - by eapply anchors_in_elements.
    - apply processed_in in Hb as [Hb _]. by eapply anchors_in_elements. }
  rewrite fixLinks_closed_form by (by apply wf_dmap).
  rewrite getElementsByTagName_dmap by done. fold anchors.
  rewrite processed_dmap, outcome_dmap by done.
  rewrite Hout, Hproc. f_equal.
  rewrite dmap_dmap. apply dmap_ext_in. intros e He. simpl.
  unfold fix_those at 1. case_decide as Hturn; [| done].
  unfold fixed. rewrite link_action_dmap by done.
  rewrite <- list_fmap_compose in Hturn.
  apply list_elem_of_fmap in Hturn as (a & Hu & Ha). simpl in Hu.
  rewrite !Hguid in Hu.
  assert (e = a) as ->; [| by rewrite Hskip].
  apply (wf_uid_inj d); [done | done | | done].
  apply processed_in in Ha as [Ha _]. by eapply anchors_in_elements.
Qed.

Lemma fixLinks_idempotent_scenario :
  fixLinks (fixLinks (Examples.equation_link SVG)).1
  = fixLinks (Examples.equation_link SVG).
Proof.
  apply fixLinks_idempotent; by_compute.
Defined.

End fixLinks.

(** ** Moving and removing nodes *)

Module tree_facts.
Import DOM DOM_facts.

Lemma edges_fst a d : (edges a d).*1 = elements d.
Proof. apply annotate_fst. Qed.

Lemma edges_Elem a e c r :
  edges a (Elem e c r) = (e, a) :: edges (Some e) c ++ edges a r.
Proof. done. Qed.

Lemma edges_append a x y : edges a (append x y) = edges a x ++ edges a y.
Proof.
  unfold edges.
  induction x as [|s r IHr|e c IHc r IHr]; simpl; [done | apply IHr |].
  by rewrite IHr, app_assoc.
Qed.

Lemma texts_append a x y : texts a (append x y) = texts a x ++ texts a y.
Proof.
  induction x as [|s r IHr|e c IHc r IHr]; simpl; [done | by rewrite IHr |].
  by rewrite IHr, app_assoc.
Qed.

Lemma elements_in_edges a d e : e ∈ elements d → ∃ p, (e, p) ∈ edges a d.
Proof.
  rewrite <- (edges_fst a). intros ([x p] & -> & H)%list_elem_of_fmap. by exists p.
Qed.

Lemma edges_in_elements a d e p : (e, p) ∈ edges a d → e ∈ elements d.
Proof. apply annotate_in_elements. Qed.

(** Below a parent every element has a parent. *)
Lemma edges_Some_parent a d x p : (x, p) ∈ edges (Some a) d → is_Some p.
Proof.
  revert a. induction d as [|s r IHr|e c IHc r IHr]; intros a.
  - by intros ?%elem_of_nil.
  - apply IHr.
  - rewrite edges_Elem.
    intros [H|[H|H]%elem_of_app]%elem_of_cons; [simplify_eq; eauto | eauto ..].
Qed.

(** The parent of an element of the tree is the parent of the tree or
    an element of the tree. *)
Lemma edges_parent_closed a d x q :
  (x, Some q) ∈ edges a d → a = Some q ∨ q ∈ elements d.
Proof.
  revert a. induction d as [|s r IHr|e c IHc r IHr]; intros a.
  - by intros ?%elem_of_nil.
  - apply IHr.
  - rewrite edges_Elem. simpl.
    intros [H|[H|H]%elem_of_app]%elem_of_cons.
    + simplify_eq. by left.
    + destruct (IHc _ H) as [Hq|Hq]; right.
      * simplify_eq. left.
      * right. apply elem_of_app. by left.
    + destruct (IHr _ H) as [Hq|Hq]; [by left | right].
      right. apply elem_of_app. by right.
Qed.

(** No element of a tree is its own parent. *)
Lemma edges_irreflexive a d x q :
  wf d → (x, Some q) ∈ edges a d → el_uid q = el_uid x → a = Some q.
Proof.
  unfold wf. revert a. induction d as [|s r IHr|e c IHc r IHr]; intros a Hwf.
  - by intros ?%elem_of_nil.
  - by apply IHr.
  - simpl in Hwf. rewrite fmap_app in Hwf.
    apply NoDup_cons in Hwf as [He Hwf].
    apply NoDup_app in Hwf as (Hc & _ & Hr).
    rewrite edges_Elem.
    intros [H|[H|H]%elem_of_app]%elem_of_cons Hu.
    + by simplify_eq.
    + specialize (IHc _ Hc H Hu). simplify_eq.
      destruct He. rewrite Hu. apply elem_of_app. left.
      apply list_elem_of_fmap_2. by eapply edges_in_elements.
    + by apply IHr.
Qed.

(** *** Subtrees *)

Lemma subtrees_fst d : (subtrees d).*1 = elements d.
Proof.
  induction d as [|s r IHr|e c IHc r IHr]; simpl; [done | done |].
  by rewrite fmap_app, IHc, IHr.
Qed.

Lemma find_app {A} (P : A → bool) (l k : list A) :
  List.find P (l ++ k) = match List.find P l with Some x => Some x | None => List.find P k end.
Proof. induction l as [|x l IH]; simpl; [done |]. by destruct (P x). Qed.

Lemma find_node_subtrees u d :
  find_node u d = List.find (λ x, bool_decide (el_uid x.1 = u)) (subtrees d).
Proof.
  induction d as [|s r IHr|e c IHc r IHr]; simpl; [done | done |].
  rewrite find_app, <- IHc, <- IHr.
  case_decide; [by rewrite bool_decide_true | by rewrite bool_decide_false].
Qed.

Lemma find_node_Some u d x :
  find_node u d = Some x → x ∈ subtrees d ∧ el_uid x.1 = u.
Proof.
  rewrite find_node_subtrees. intros [H1 H2]%find_some.
  split; [by apply list_elem_of_In | by apply bool_decide_eq_true in H2].
Qed.

Lemma find_node_is_Some u d :
  u ∈ el_uid <$> elements d → is_Some (find_node u d).
Proof.
  rewrite find_node_subtrees, <- subtrees_fst, <- list_fmap_compose.
  intros (x & -> & Hx)%list_elem_of_fmap.
  destruct (List.find _ (subtrees d)) eqn:Hf; [done |].
  apply list_elem_of_In in Hx.
  pose proof (find_none _ _ Hf _ Hx) as Hn. simpl in Hn.
  by rewrite bool_decide_true in Hn.
Qed.

Lemma subtree_unique d x y :
  wf d → x ∈ subtrees d → y ∈ subtrees d → el_uid x.1 = el_uid y.1 → x = y.
Proof.
  unfold wf. rewrite <- subtrees_fst, <- list_fmap_compose. intros Hwf Hx Hy Hu.
  apply list_elem_of_lookup in Hx as [i Hi], Hy as [j Hj].
  assert (i = j) as ->; [| congruence].
  eapply NoDup_lookup; [done | |]; rewrite list_lookup_fmap.
  - by rewrite Hi.
  - rewrite Hj. simpl. by rewrite Hu.
Qed.

Lemma find_node_unique d x :
  wf d → x ∈ subtrees d → find_node (el_uid x.1) d = Some x.
Proof.
  intros Hwf Hx.
  destruct (find_node_is_Some (el_uid x.1) d) as [y Hy].
  { rewrite <- subtrees_fst, <- list_fmap_compose. by apply (list_elem_of_fmap_2 (el_uid ∘ fst)). }
  rewrite Hy. f_equal. apply find_node_Some in Hy as [Hy Hu].
  by apply (subtree_unique d).
Qed.

(** The tree around a subtree. *)
Lemma subtree_split a d e c :
  (e, c) ∈ subtrees d →
  ∃ p rest, edges a d ≡ₚ (e, p) :: edges (Some e) c ++ rest ∧
            subtrees c ⊆ subtrees d.
Proof.
  revert a. induction d as [|s r IHr|e0 c0 IHc r IHr]; intros a; simpl.
  - by intros ?%elem_of_nil.
  - apply IHr.
  - intros [H|[H|H]%elem_of_app]%elem_of_cons.
    + simplify_eq. exists a, (edges a r). split; [done |].
      intros x Hx. right. apply elem_of_app. by left.
    + destruct (IHc (Some e0) H) as (p & rest & Hp & Hsub).
      exists p, ((e0, a) :: rest ++ edges a r). split.
      * rewrite edges_Elem, Hp. solve_Permutation.
      * intros x Hx. right. apply elem_of_app. left. by apply Hsub.
    + destruct (IHr a H) as (p & rest & Hp & Hsub).
      exists p, ((e0, a) :: edges (Some e0) c0 ++ rest). split.
      * rewrite edges_Elem, Hp. solve_Permutation.
      * intros x Hx. right. apply elem_of_app. right. by apply Hsub.
Qed.

Lemma subtree_edges a d e c :
  (e, c) ∈ subtrees d → edges (Some e) c ⊆ edges a d.
Proof.
  intros H. destruct (subtree_split a d e c H) as (p & rest & Hp & _).
  intros x Hx. rewrite Hp. right. apply elem_of_app. by left.
Qed.

Lemma subtree_elements d e c :
  (e, c) ∈ subtrees d → ∃ rest, elements d ≡ₚ e :: elements c ++ rest.
Proof.
  intros H. destruct (subtree_split None d e c H) as (p & rest & Hp & _).
  exists (rest.*1). rewrite <- (edges_fst None), Hp.
  rewrite fmap_cons, fmap_app. by rewrite edges_fst.
Qed.

Lemma elements_in_subtrees d e : e ∈ elements d → ∃ c, (e, c) ∈ subtrees d.
Proof.
  rewrite <- subtrees_fst. intros ([x c] & -> & H)%list_elem_of_fmap. by exists c.
Qed.

(** In a tree no node is below itself. *)
Lemma subtree_not_below d e c x :
  wf d → (e, c) ∈ subtrees d → x ∈ elements c → el_uid x ≠ el_uid e.
Proof.
  intros Hwf H Hx Hu. destruct (subtree_elements d e c H) as (rest & Hp).
  unfold wf in Hwf. rewrite Hp, fmap_cons, fmap_app in Hwf.
  apply NoDup_cons in Hwf as [He _]. destruct He. rewrite <- Hu.
  apply elem_of_app. left. by apply list_elem_of_fmap_2.
Qed.

(** *** The parent *)

Lemma edge_unique d x p y q :
  wf d → (x, p) ∈ edges None d → (y, q) ∈ edges None d →
  el_uid x = el_uid y → (x, p) = (y, q).
Proof.
  unfold wf. rewrite <- (edges_fst None), <- list_fmap_compose. intros Hwf Hx Hy Hu.
  apply list_elem_of_lookup in Hx as [i Hi], Hy as [j Hj].
  assert (i = j) as ->; [| congruence].
  eapply NoDup_lookup; [done | |]; rewrite list_lookup_fmap.
  - by rewrite Hi.
  - rewrite Hj. simpl. by rewrite Hu.
Qed.

Lemma parentElement_edge d x p :
  wf d → (x, p) ∈ edges None d → parentElement (el_uid x) d = p.
Proof.
  intros Hwf Hx. unfold parentElement. fold (edges None d).
  destruct (find_uid (el_uid x) (edges None d)) as [[y q]|] eqn:Hf.
  - apply find_uid_Some in Hf as [Hy Hu]. simpl in Hu.
    pose proof (edge_unique d y q x p Hwf Hy Hx Hu). by simplify_eq.
  - unfold find_uid in Hf. apply list_elem_of_In in Hx.
    pose proof (find_none _ _ Hf _ Hx) as Hn. simpl in Hn.
    by rewrite bool_decide_true in Hn.
Qed.


End tree_facts.

Module move_facts.
Import DOM DOM_facts tree_facts.

(** *** detach *)

Lemma detach_None u d :
  (detach u d).1 = None → u ∉ el_uid <$> elements d.
Proof.
  induction d as [|s r IHr|e c IHc r IHr]; simpl.
  - intros _. apply not_elem_of_nil.
  - destruct (detach u r) as [x r']. simpl in *. apply IHr.
  - case_decide as He; [done |].
    destruct (detach u c) as [[x|] c']; [done |].
    destruct (detach u r) as [x r']. simpl in *. intros Hx.
    rewrite fmap_app.
    intros [H|[H|H]%elem_of_app]%elem_of_cons; [done | by apply IHc | by apply IHr].
Qed.

Lemma find_uid_None {A} u (l : list (element * A)) :
  u ∉ el_uid <$> l.*1 → find_uid u l = None.
Proof.
  intros Hu. unfold find_uid.
  destruct (List.find _ l) as [x|] eqn:Hf; [| done].
  apply find_some in Hf as [Hx Hb]. apply bool_decide_eq_true in Hb.
  destruct Hu. rewrite <- Hb. apply list_elem_of_fmap_2, list_elem_of_fmap_2.
  by apply list_elem_of_In.
Qed.

(** What [detach] takes out is the first element that is the node, with
    its parent [p]; the rest of the tree is as it was. *)
Lemma find_uid_cons {A} u (x : element * A) l :
  find_uid u (x :: l) = if decide (el_uid x.1 = u) then Some x else find_uid u l.
Proof. unfold find_uid. simpl. by case_bool_decide; case_decide. Qed.

Lemma find_uid_app {A} u (l k : list (element * A)) :
  find_uid u (l ++ k) = match find_uid u l with Some x => Some x | None => find_uid u k end.
Proof. apply find_app. Qed.

Lemma find_node_None u d : u ∉ el_uid <$> elements d → find_node u d = None.
Proof.
  intros Hu. destruct (find_node u d) as [y|] eqn:Hy; [| done].
  apply find_node_Some in Hy as [Hy Hyu]. destruct Hu.
  rewrite <- Hyu, <- subtrees_fst, <- list_fmap_compose.
  by apply (list_elem_of_fmap_2 (el_uid ∘ fst)).
Qed.

(** What [detach] takes out is the first element that is the node, with
    its parent [p]; the rest of the tree is as it was. *)
Lemma detach_Some u d a e c d' :
  detach u d = (Some (e, c), d') →
  el_uid e = u ∧
  find_node u d = Some (e, c) ∧
  texts (el_uid <$> a) d ≡ₚ texts (Some u) c ++ texts (el_uid <$> a) d' ∧
  ∃ p, find_uid u (edges a d) = Some (e, p) ∧
       edges a d ≡ₚ (e, p) :: edges (Some e) c ++ edges a d'.
Proof.
  revert a d'. induction d as [|s r IHr|e0 c0 IHc r IHr]; intros a d'; cbn [detach].
  - done.
  - destruct (detach u r) as [x r'] eqn:Hr. intros [= -> <-].
    destruct (IHr a r' eq_refl) as (Hu & Hf & Ht & p & Hp & Hperm).
    split_and!; [done | done | |].
    + cbn [texts]. rewrite Ht. solve_Permutation.
    + by exists p.
  - rewrite !edges_Elem, find_uid_cons. cbn [find_node texts fst].
    case_decide as He.
    + intros [= -> -> ->]. split_and!; [done | done | by subst | ].
      by exists a.
    + destruct (detach u c0) as [[x|] c0'] eqn:Hc.
      * intros [= -> <-].
        destruct (IHc (Some e0) c0' eq_refl) as (Hu & Hf & Ht & p & Hp & Hperm).
        split_and!; [done | by rewrite Hf | |].
        -- cbn [texts]. simpl in Ht. rewrite Ht. solve_Permutation.
        -- exists p. rewrite !edges_Elem. split.
           ++ by rewrite find_uid_app, Hp.
           ++ rewrite Hperm. solve_Permutation.
      * destruct (detach u r) as [x r'] eqn:Hr. intros [= -> <-].
        destruct (IHr a r' eq_refl) as (Hu & Hf & Ht & p & Hp & Hperm).
        assert (u ∉ el_uid <$> elements c0) as Hc0.
        { apply detach_None. by rewrite Hc. }
        split_and!; [done | | |].
        -- by rewrite find_node_None.
        -- cbn [texts]. rewrite Ht. solve_Permutation.
        -- exists p. rewrite !edges_Elem. split.
           ++ rewrite find_uid_app, find_uid_None; [done | by rewrite edges_fst].
           ++ rewrite Hperm. solve_Permutation.
Qed.

Lemma detach_is_Some u d :
  u ∈ el_uid <$> elements d → ∃ e c d', detach u d = (Some (e, c), d').
Proof.
  intros Hu. destruct (detach u d) as [[[e c]|] d'] eqn:Hd; [by eauto |].
  destruct (detach_None u d); [by rewrite Hd | done].
Qed.

(** *** attach *)

Lemma attach_is_Some s n d :
  s ∈ el_uid <$> elements d → is_Some (attach s n d).
Proof.
  induction d as [|t r IHr|e c IHc r IHr]; simpl.
  - by intros ?%elem_of_nil.
  - intros H. destruct (IHr H) as [x ->]. by eexists.
  - case_decide as Hd; [by eexists |]. rewrite fmap_app.
    intros [H|[H|H]%elem_of_app]%elem_of_cons; [done | |].
    + destruct (IHc H) as [x ->]. by eexists.
    + destruct (attach s n c); [by eexists |].
      destruct (IHr H) as [x ->]. by eexists.
Qed.

(** [attach] puts the new nodes below the first element that is the
    node [s], after its children, and leaves the rest as it was. *)
Lemma attach_Some s n d a d' :
  attach s n d = Some d' →
  ∃ es c, el_uid es = s ∧
    find_node s d = Some (es, c) ∧
    find_node s d' = Some (es, append c n) ∧
    texts (el_uid <$> a) d' ≡ₚ texts (el_uid <$> a) d ++ texts (Some s) n ∧
    edges a d' ≡ₚ edges a d ++ edges (Some es) n.
Proof.
  revert a d'. induction d as [|t r IHr|e c IHc r IHr]; intros a d'; cbn [attach].
  - done.
  - destruct (attach s n r) as [r'|] eqn:Hr; [| done]. intros [= <-].
    destruct (IHr a r' eq_refl) as (es & cs & Hu & Hf & Hf' & Ht & Hperm).
    exists es, cs. split_and!; [done | done | done | | done].
    cbn [texts]. by rewrite Ht.
  - cbn [find_node]. case_decide as He.
    + intros [= <-]. exists e, c. cbn [find_node]. rewrite decide_True by done.
      split_and!; [done | done | done | |].
      * subst s. cbn [texts]. rewrite texts_append. solve_Permutation.
      * rewrite !edges_Elem, edges_append. solve_Permutation.
    + destruct (attach s n c) as [c'|] eqn:Hc.
      * intros [= <-].
        destruct (IHc (Some e) c' eq_refl) as (es & cs & Hu & Hf & Hf' & Ht & Hperm).
        exists es, cs. cbn [find_node]. rewrite decide_False by done. rewrite Hf, Hf'.
        split_and!; [done | done | done | |].
        -- cbn [texts]. simpl in Ht. rewrite Ht. solve_Permutation.
        -- rewrite !edges_Elem, Hperm. solve_Permutation.
      * destruct (attach s n r) as [r'|] eqn:Hr; [| done]. intros [= <-].
        destruct (IHr a r' eq_refl) as (es & cs & Hu & Hf & Hf' & Ht & Hperm).
        assert (find_node s c = None) as Hnone.
        { destruct (find_node s c) as [y|] eqn:Hy; [| done].
          apply find_node_Some in Hy as [Hy Hyu].
          destruct (attach_is_Some s n c) as [? ?]; [| congruence].
          rewrite <- Hyu, <- subtrees_fst, <- list_fmap_compose.
          by apply (list_elem_of_fmap_2 (el_uid ∘ fst)). }
        exists es, cs. cbn [find_node]. rewrite decide_False by done.
        rewrite Hnone, Hf, Hf'.
        split_and!; [done | done | done | |].
        -- cbn [texts]. rewrite Ht. solve_Permutation.
        -- rewrite !edges_Elem, Hperm. solve_Permutation.
Qed.

Lemma childNodes_length_append c n :
  childNodes_length (append c n) = childNodes_length c + childNodes_length n.
Proof. induction c; simpl; congruence. Qed.

End move_facts.

(** ** Footers *)

Module fixFooters_facts.
Import DOM DOM_facts tree_facts move_facts RevealPrint.

Lemma tidied_refl d : wf d → tidied d d.
Proof. intros Hwf. split_and!; [done | done | done | done |]. intros; by left. Qed.

Lemma tidied_trans d1 d2 d3 : tidied d1 d2 → tidied d2 d3 → tidied d1 d3.
Proof.
  intros (Hwf2 & Hsub2 & Hlen2 & Ht2 & Hc2) (Hwf3 & Hsub3 & Hlen3 & Ht3 & Hc3).
  split_and!; [done | set_solver | lia | by rewrite Ht3 |].
  intros x q Hx Hcond. destruct (Hc2 x q Hx Hcond) as [Hx2|[Hp Hx2]].
  - by apply Hc3.
  - right. split; [done |]. intros Hx3. by apply Hx2, Hsub3.
Qed.

Lemma uids_edges a d : el_uid <$> elements d = (el_uid ∘ fst) <$> edges a d.
Proof. by rewrite <- (edges_fst a), <- list_fmap_compose. Qed.

(** A footer of the collection is below the slide, and has a parent. *)
Lemma footer_below slide cls d footer :
  wf d → footer ∈ getElementsByClassName slide cls d →
  has_class cls footer = true ∧
  ∃ es cs parent,
    el_uid es = slide ∧ (es, cs) ∈ subtrees d ∧ footer ∈ elements cs ∧
    (footer, Some parent) ∈ edges (Some es) cs ∧
    child_of footer parent d.
Proof.
  intros Hwf. unfold getElementsByClassName.
  destruct (find_node slide d) as [[es cs]|] eqn:Hs; [| by intros ?%elem_of_nil].
  intros [Hcls Hin]%list_elem_of_filter. split; [done |].
  apply find_node_Some in Hs as [Hs Hu].
  destruct (elements_in_edges (Some es) cs footer Hin) as [p Hp].
  destruct (edges_Some_parent _ _ _ _ Hp) as [parent ->].
  exists es, cs, parent. split_and!; [done | done | done | done |].
  by apply (subtree_edges None d es cs).
Qed.

(** One turn of the loop of [fixFooters] ends normally. *)
Lemma fixFooter_step slide footer d :
  wf d → footer ∈ getElementsByClassName slide "footer" d →
  ∃ d', fixFooter slide footer d = (d', Normal) ∧ tidied d d'.
Proof.
  intros Hwf Hfooter.
  destruct (footer_below _ _ _ _ Hwf Hfooter)
    as (Hcls & es & cs & parent & Hslide & Hes & Hin & Hedge & Hchild).
  unfold fixFooter.
  rewrite (parentElement_edge d footer (Some parent) Hwf Hchild).
  case_decide as HP; [| exists d; split; [done | by apply tidied_refl]].
  (* the footer leaves its paragraph *)
  assert (footer ∈ elements d) as Hfd by (by eapply edges_in_elements).
  destruct (detach_is_Some (el_uid footer) d) as (e & c & d0 & Hdet).
  { by apply list_elem_of_fmap_2. }
  destruct (detach_Some _ _ None _ _ _ Hdet) as (Hu & Hfind & Htexts & p & Hp & Hperm).
  assert ((e, p) = (footer, Some parent)) as [= -> ->].
  { apply (edge_unique d); [done | | done | done].
    rewrite Hperm. left. }
  apply find_node_Some in Hfind as [Hsub _].
  assert (es ∈ elements d0) as Hes0.
  { assert (es ∈ elements d) as Hesd.
    { rewrite <- subtrees_fst. by apply (list_elem_of_fmap_2' fst _ (es, cs)). }
    rewrite <- (edges_fst None), Hperm, fmap_cons, fmap_app, !edges_fst in Hesd.
    apply elem_of_cons in Hesd as [->|[Hesc|]%elem_of_app]; [| | done].
    - by destruct (subtree_not_below d footer cs footer).
    - destruct (elements_in_subtrees c es Hesc) as [cs' Hcs'].
      destruct (subtree_split None d footer c Hsub) as (_ & _ & _ & Hsubs).
      assert ((es, cs') = (es, cs)) as [= ->].
      { apply (subtree_unique d); [done | by apply Hsubs | done | done]. }
      destruct (subtree_elements c es cs Hcs') as (rest & Hrest).
      destruct (subtree_not_below d footer c footer); [done | done | | done].
      rewrite Hrest. right. apply elem_of_app. by left. }
  unfold appendChild. rewrite Hdet.
  destruct (attach_is_Some slide (Elem footer c Nil) d0) as [d1 Hatt].
  { rewrite <- Hslide. by apply list_elem_of_fmap_2. }
  rewrite Hatt.
  destruct (attach_Some _ _ _ None _ Hatt)
    as (es' & c0 & Hslide' & Hf0 & Hf1 & Htexts1 & Hperm1).
  rewrite edges_Elem in Hperm1. cbn [texts fmap option_fmap option_map] in *.
  assert (edges None d1 ≡ₚ (footer, Some es') :: edges (Some footer) c ++ edges None d0)
    as Hd1 by (rewrite Hperm1; simpl; solve_Permutation).
  assert (elements d1 ≡ₚ elements d) as Hel1.
  { rewrite <- !(edges_fst None), Hd1, Hperm. by rewrite !fmap_cons. }
  assert (wf d1) as Hwf1 by (unfold wf; by rewrite Hel1).
  assert (tidied d d1) as Htid1.
  { split_and!; [done | by rewrite Hel1 | by rewrite Hel1 | |].
    - rewrite Htexts1, Htexts. simpl. solve_Permutation.
    - intros x q Hx Hcond. left. unfold child_of in *. fold (edges None d) in Hx.
      fold (edges None d1). rewrite Hperm in Hx. rewrite Hd1.
      apply elem_of_cons in Hx as [[= -> ->]|Hx]; [| by right].
      destruct Hcond; congruence. }
  assert (parent ∈ elements d1) as Hpar1.
  { rewrite Hel1. destruct (edges_parent_closed _ _ _ _ Hchild); done. }
  destruct (find_node_is_Some (el_uid parent) d1) as [[ep cp] Hfp].
  { by apply list_elem_of_fmap_2. }
  rewrite Hfp. apply find_node_Some in Hfp as Hfp'. destruct Hfp' as [Hep Hepu].
  simpl in Hepu.
  assert (ep = parent) as ->.
  { apply (wf_uid_inj d1); [done | | done | done].
    rewrite <- subtrees_fst. by apply (list_elem_of_fmap_2' fst _ (ep, cp)). }
  case_decide as Hempty; [| by exists d1].
  (* the paragraph is empty *)
  assert (el_uid parent ≠ slide) as Hnot_slide.
  { intros Heq. rewrite Heq, Hf1 in Hfp. injection Hfp as _ <-.
    rewrite childNodes_length_append in Hempty. simpl in Hempty. lia. }
  assert (∃ gp, child_of parent gp d1) as [gp Hgp].
  { destruct (edges_parent_closed _ _ _ _ Hedge) as [[= <-]|Hpin]; [done |].
    destruct (elements_in_edges (Some es) cs parent Hpin) as [pp Hpp].
    destruct (edges_Some_parent _ _ _ _ Hpp) as [gp ->]. exists gp.
    apply (subtree_edges None d es cs Hes) in Hpp.
    unfold child_of. fold (edges None d1). rewrite Hd1.
    rewrite Hperm in Hpp.
    apply elem_of_cons in Hpp as [[= -> ->]|Hpp]; [| by right].
    by pose proof (edges_irreflexive None d _ _ Hwf Hchild eq_refl). }
  rewrite (parentElement_edge d1 parent (Some gp) Hwf1 Hgp).
  unfold removeChild.
  destruct (detach_is_Some (el_uid parent) d1) as (e2 & c2 & d2 & Hdet2).
  { by apply list_elem_of_fmap_2. }
  rewrite Hdet2. simpl. exists d2. split; [done |].
  destruct (detach_Some _ _ None _ _ _ Hdet2) as (Hu2 & Hfind2 & Htexts2 & p2 & Hp2 & Hperm2).
  rewrite Hfp in Hfind2. injection Hfind2 as <- <-.
  destruct cp as [| |]; [| done | done].
  cbn [edges annotate texts app fmap option_fmap option_map] in Hperm2, Htexts2.
  fold (edges None d2) in Hperm2.
  assert (elements d1 ≡ₚ parent :: elements d2) as Hel2.
  { rewrite <- !(edges_fst None), Hperm2. by rewrite fmap_cons. }
  apply (tidied_trans d d1 d2 Htid1).
  split_and!.
  - unfold wf in *. rewrite Hel2, fmap_cons in Hwf1. by apply NoDup_cons in Hwf1 as [_ ?].
  - intros x Hx. rewrite Hel2. by right.
  - rewrite Hel2. simpl. lia.
  - by rewrite Htexts2.
  - intros x q Hx _. unfold child_of in *. fold (edges None d1) in Hx.
    fold (edges None d2). rewrite Hperm2 in Hx.
    apply elem_of_cons in Hx as [[= -> ->]|Hx]; [right | by left].
    split; [done |]. intros Hin2.
    unfold wf in Hwf1. rewrite Hel2, fmap_cons in Hwf1.
    apply NoDup_cons in Hwf1 as [Hnot _]. by apply Hnot, list_elem_of_fmap_2.
Qed.

End fixFooters_facts.

Section fixFooters.
Import DOM DOM_facts tree_facts move_facts fixFooters_facts RevealPrint.

Lemma footers_length slide cls d :
  length (getElementsByClassName slide cls d) ≤ length (elements d).
Proof.
  unfold getElementsByClassName.
  destruct (find_node slide d) as [[es cs]|] eqn:Hs; [| simpl; lia].
  apply find_node_Some in Hs as [Hs _].
  destruct (subtree_elements d es cs Hs) as (rest & ->).
  etrans; [apply length_filter |]. simpl. rewrite length_app. lia.
Qed.







Lemma fixFooters_spaced_footer :
  (fixFooters (Examples.deck Examples.spaced_footer)).1
  = Examples.deck
      (Elem (Examples.el 1 HTML "section" [])
         (Elem (Examples.el 2 HTML "p" []) (Text " " Nil)
         (Elem (Examples.el 4 HTML "div" []) (Examples.footer 5 "B")
         (Examples.footer 3 "A"))) Nil).
Proof. by vm_compute. Qed.

(** The scenario of C7: the footer becomes a child of the slide and its
    paragraph is removed. *)
Lemma fixFooters_one_footer :
  fixFooters (Examples.deck Examples.one_footer)
  = (Examples.deck (Elem (Examples.el 1 HTML "section" []) (Examples.footer 3 "X") Nil),
     Normal).
Proof. by vm_compute. Qed.

(** C7 does not hold for the second footer of a slide: when the first
    footer has moved to the end of the slide, the second one is at the
    index of the first in the live collection, and the loop goes on
    with the next index.  The footer [B] stays in its paragraph. *)
Theorem fixFooters_skips_second_footer :
  fixFooters (Examples.deck Examples.two_footers)
  = (Examples.deck
       (Elem (Examples.el 1 HTML "section" [])
          (Elem (Examples.el 4 HTML "p" []) (Examples.footer 5 "B")
          (Examples.footer 3 "A")) Nil),
     Normal).
Proof. by vm_compute. Qed.

End fixFooters.


(** ** Export mode *)

Section export_mode.
Import DOM DOM_facts tree_facts move_facts RevealPrint.
















End export_mode.

(** * Further properties *)

(** ** The title of the export *)

Module title_facts.
Import JS.

Lemma length_append (a b : string) :
  String.length (a +:+ b) = String.length a + String.length b.
Proof.
  induction a as [|c a IH]; [done |].
  rewrite JS_facts.append_cons. simpl. by rewrite IH.
Qed.

Lemma substring_0_0 (s : string) : String.substring 0 0 s = "".
Proof. by destruct s. Qed.

Lemma substring_0_all (n : nat) (s : string) :
  String.length s ≤ n → String.substring 0 n s = s.
Proof.
  revert n. induction s as [|c s IH]; intros n Hn.
  - by destruct n.
  - destruct n as [|n]; simpl in *; [lia |]. rewrite IH; [done | lia].
Qed.

Lemma substring_0_append (a b : string) (k : nat) :
  String.substring 0 (String.length a + k) (a +:+ b) = a +:+ String.substring 0 k b.
Proof.
  induction a as [|c a IH]; [done |].
  rewrite !JS_facts.append_cons. simpl. by rewrite IH.
Qed.

Lemma substring_skip (a b : string) (k : nat) :
  String.substring (String.length a) k (a +:+ b) = String.substring 0 k b.
Proof.
  induction a as [|c a IH]; [done |].
  rewrite JS_facts.append_cons. simpl. apply IH.
Qed.

(** [substring] between two indices in order and in range. *)
Lemma substring_in_range (s : string) (lo hi : nat) :
  lo ≤ hi →
  substring s (Z.of_nat lo) (Z.of_nat hi)
  = String.substring (Nat.min lo (String.length s))
      (Nat.min hi (String.length s) - Nat.min lo (String.length s)) s.
Proof.
  intros Hle. unfold substring, clamp, length. f_equal; lia.
Qed.

Lemma substring_from_append (a b : string) :
  substring_from (a +:+ b) (Z.of_nat (String.length a)) = b.
Proof.
  unfold substring_from, length.
  rewrite substring_in_range by (rewrite length_append; lia).
  rewrite length_append.
  replace (Nat.min (String.length a) (String.length a + String.length b))
    with (String.length a) by lia.
  replace (Nat.min (String.length a + String.length b) (String.length a + String.length b)
           - String.length a) with (String.length b) by lia.
  rewrite substring_skip. by apply substring_0_all.
Qed.

Lemma includes_cons (c x : ascii) (s : string) :
  includes (String x s) (String c "") = bool_decide (c = x) || includes s (String c "").
Proof.
  cbn [includes]. f_equal. simpl.
  destruct (Ascii.ascii_dec c x); [rewrite bool_decide_true | rewrite bool_decide_false];
    try done; by destruct s.
Qed.

Lemma includes_nil (c : ascii) : includes "" (String c "") = false.
Proof. done. Qed.

Lemma includes_append (c : ascii) (a b : string) :
  includes (a +:+ b) (String c "") = includes a (String c "") || includes b (String c "").
Proof.
  induction a as [|x a IH]; [done |].
  rewrite JS_facts.append_cons, !includes_cons, IH. by rewrite orb_assoc.
Qed.

Lemma prefix_char (c x : ascii) (s : string) :
  String.prefix (String c "") (String x s) = bool_decide (c = x).
Proof.
  simpl.
  destruct (Ascii.ascii_dec c x); [rewrite bool_decide_true | rewrite bool_decide_false];
    try done; by destruct s.
Qed.

(** Where the needle does not occur, the search keeps what it had. *)
Lemma lastIndexOf_from_absent (c : ascii) (s : string) (i found : Z) :
  includes s (String c "") = false → lastIndexOf_from i s (String c "") found = found.
Proof.
  revert i found. induction s as [|x s IH]; intros i found; [done |].
  rewrite includes_cons. intros [Hx Hs]%orb_false_iff.
  cbn [lastIndexOf_from]. rewrite prefix_char, Hx. by apply IH.
Qed.

(** The last occurrence is the one that nothing follows. *)
Lemma lastIndexOf_from_last (c : ascii) (pre post : string) (i found : Z) :
  includes post (String c "") = false →
  lastIndexOf_from i (pre +:+ String c post) (String c "") found
  = (i + Z.of_nat (String.length pre))%Z.
Proof.
  intros Hpost. revert i found. induction pre as [|x pre IH]; intros i found.
  - change ("" +:+ String c post) with (String c post).
    cbn [lastIndexOf_from]. rewrite prefix_char, bool_decide_true by done.
    rewrite lastIndexOf_from_absent by done. simpl. lia.
  - rewrite JS_facts.append_cons. cbn [lastIndexOf_from].
    rewrite IH. simpl String.length. lia.
Qed.

Lemma lastIndexOf_last (c : ascii) (pre post : string) :
  includes post (String c "") = false →
  lastIndexOf (pre +:+ String c post) (String c "") = Z.of_nat (String.length pre).
Proof. intros H. unfold lastIndexOf. by rewrite lastIndexOf_from_last. Qed.

Lemma lastIndexOf_absent (c : ascii) (s : string) :
  includes s (String c "") = false → lastIndexOf s (String c "") = (-1)%Z.
Proof. apply lastIndexOf_from_absent. Qed.

End title_facts.

Section setupTitle.
Import JS RevealPrint title_facts.

(** X1.  For a path [dir/name.ext] the title is [name.], then as many
    characters of the extension as the directory has, then [pdf]: the
    index of the dot is taken in the whole path and used in the file
    name.  At the root this is [name.pdf]; below a directory that is at
    least as long as the extension it is [name.extpdf]. *)
Theorem setupTitle_of_path w dir name ext :
  pathname w = dir +:+ "/" +:+ name +:+ "." +:+ ext →
  includes name "/" = false →
  includes ext "/" = false →
  includes ext "." = false →
  title (setupTitle w)
  = name +:+ "." +:+ String.substring 0 (String.length dir) ext +:+ "pdf".
Proof.
  intros Hpath Hname Hext Hdot.
  assert (includes (name +:+ "." +:+ ext) "/" = false) as Hfile.
  { rewrite !includes_append. by rewrite Hname, Hext. }
  assert (lastIndexOf (pathname w) "/" = Z.of_nat (String.length dir)) as Hslash.
  { rewrite Hpath. by apply (lastIndexOf_last "/" dir). }
  assert (substring_from (pathname w) (Z.of_nat (String.length dir) + 1)
          = name +:+ "." +:+ ext) as Hfilename.
  { rewrite Hpath.
    replace (Z.of_nat (String.length dir) + 1)%Z
      with (Z.of_nat (String.length (dir +:+ "/"))) by (rewrite length_append; simpl; lia).
    rewrite <- (append_assoc dir "/"). apply substring_from_append. }
  assert (lastIndexOf (pathname w) "."
          = Z.of_nat (String.length (dir +:+ "/" +:+ name))) as Hlast.
  { rewrite Hpath, <- (append_assoc dir "/"), <- (append_assoc (dir +:+ "/") name).
    rewrite (append_assoc dir "/" name).
    by apply (lastIndexOf_last "." (dir +:+ "/" +:+ name) ext). }
  unfold setupTitle. simpl title. rewrite Hslash, Hfilename, Hlast.
  change 0%Z with (Z.of_nat 0).
  rewrite substring_in_range by lia.
  rewrite Nat.min_0_l, Nat.sub_0_r.
  rewrite <- (append_assoc name "." ext), <- (append_assoc name "." (_ +:+ "pdf")).
  rewrite <- (append_assoc (name +:+ ".") _ "pdf"). f_equal.
  rewrite !length_append. simpl String.length.
  destruct (decide (String.length dir ≤ String.length ext)) as [Hle|Hgt].
  - replace (Nat.min _ _) with (String.length (name +:+ ".") + String.length dir)
      by (rewrite length_append; simpl; lia).
    by rewrite substring_0_append.
  - replace (Nat.min _ _) with (String.length (name +:+ ".") + String.length ext)
      by (rewrite length_append; simpl; lia).
    rewrite substring_0_append. f_equal.
    rewrite !substring_0_all; [done | lia | lia].
Qed.

Lemma setupTitle_of_path_scenario :
  title (setupTitle (Examples.page Examples.empty_deck "/talks/2024/intro.html" ""))
  = "intro.htmlpdf" ∧
  title (setupTitle (Examples.page Examples.empty_deck "/d/intro.html" ""))
  = "intro.htpdf".
Proof.
  split.
  - by apply (setupTitle_of_path _ "/talks/2024" "intro" "html").
  - by apply (setupTitle_of_path _ "/d" "intro" "html").
Defined.

(** X2.  A path without a dot gives the title [pdf]. *)
Theorem setupTitle_without_dot w :
  includes (pathname w) "." = false → title (setupTitle w) = "pdf".
Proof.
  intros Hdot. unfold setupTitle. simpl title.
  rewrite (lastIndexOf_absent "." _ Hdot).
  unfold substring at 1, clamp.
  replace (Z.to_nat _) with 0 by lia.
  replace (Z.to_nat _) with 0 by lia.
  by rewrite substring_0_0.
Qed.

Lemma setupTitle_without_dot_scenario :
  title (setupTitle (Examples.page Examples.empty_deck "/deck/" "")) = "pdf".
Proof. by apply setupTitle_without_dot. Defined.

End setupTitle.

(** ** Loops that change attributes *)

Module update_facts.
Import DOM DOM_facts.

Lemma on_nodes_keeps us f : keeps_identity f → keeps_identity (on_nodes us f).
Proof. intros Hf e. unfold on_nodes. case_decide; [apply Hf | done]. Qed.

Lemma update_on_nodes u f d : update u f d = dmap (on_nodes [u] f) d.
Proof.
  unfold update. apply dmap_ext_in. intros e _. unfold on_nodes.
  destruct (decide (el_uid e = u)) as [->|Hne].
  - rewrite decide_True; [done | by left].
  - rewrite decide_False; [done |]. by intros ?%list_elem_of_singleton.
Qed.

Lemma on_nodes_cons u us f e :
  (∀ e, el_uid (f e) = el_uid e) → (∀ e, f (f e) = f e) →
  on_nodes us f (on_nodes [u] f e) = on_nodes (u :: us) f e.
Proof.
  intros Hu Hf. unfold on_nodes.
  destruct (decide (el_uid e ∈ [u])) as [Hin|Hin].
  - rewrite Hu, Hf. apply list_elem_of_singleton in Hin as Heq.
    rewrite (decide_True (P := el_uid e ∈ u :: us)) by (rewrite Heq; left).
    by case_decide.
  - destruct (decide (el_uid e ∈ us)) as [Hus|Hus].
    + rewrite decide_True; [done | by right].
    + rewrite decide_False; [done |].
      intros [Heq|]%elem_of_cons; [| done]. destruct Hin. rewrite Heq. left.
Qed.

Lemma on_nodes_nil f d : dmap (on_nodes [] f) d = d.
Proof.
  apply dmap_id_in. intros e _. unfold on_nodes.
  rewrite decide_False; [done | apply not_elem_of_nil].
Qed.

(** A loop over a list of elements that changes each in turn by [f]
    is [f] on their nodes. *)
Lemma for_each_update f items d :
  (∀ e, el_uid (f e) = el_uid e) → (∀ e, f (f e) = f e) →
  for_each items (λ e d, (update (el_uid e) f d, Normal)) d
  = (dmap (on_nodes (el_uid <$> items) f) d, Normal).
Proof.
  intros Hu Hf. revert d. induction items as [|x items IH]; intros d.
  - simpl. by rewrite on_nodes_nil.
  - simpl. rewrite IH, update_on_nodes, dmap_dmap. f_equal.
    apply dmap_ext_in. intros e _. by apply on_nodes_cons.
Qed.

(** The same loop over the live collection of the elements of a name. *)
Lemma for_live_update name f fuel i d :
  keeps_identity f → (∀ e, f (f e) = f e) →
  length (getElementsByTagName name d) ≤ i + fuel →
  for_live fuel (getElementsByTagName name)
    (λ e d, (update (el_uid e) f d, Normal)) i d
  = (dmap (on_nodes (el_uid <$> drop i (getElementsByTagName name d)) f) d, Normal).
Proof.
  intros Hk Hf. revert i d. induction fuel as [|fuel IH]; intros i d Hlen.
  - simpl. destruct (getElementsByTagName name d !! i) as [x|] eqn:Hx.
    + apply lookup_lt_Some in Hx. lia.
    + apply lookup_ge_None in Hx. rewrite drop_ge by done. by rewrite on_nodes_nil.
  - simpl. destruct (getElementsByTagName name d !! i) as [x|] eqn:Hx.
    + rewrite IH.
      * rewrite update_on_nodes, dmap_dmap.
        rewrite getElementsByTagName_dmap by by apply on_nodes_keeps.
        rewrite <- fmap_drop, <- list_fmap_compose.
        rewrite (list_fmap_ext (el_uid ∘ on_nodes [el_uid x] f) el_uid
                   (drop (S i) (getElementsByTagName name d)))
          by (intros ? e _; simpl; apply (on_nodes_keeps _ _ Hk e)).
        f_equal. apply dmap_ext_in. intros e _. simpl.
        rewrite on_nodes_cons by (done || intros e'; apply (Hk e')).
        by rewrite (drop_S _ _ _ Hx).
      * rewrite update_on_nodes, getElementsByTagName_dmap by by apply on_nodes_keeps.
        rewrite length_fmap. lia.
    + apply lookup_ge_None in Hx. rewrite drop_ge by done. by rewrite on_nodes_nil.
Qed.

(** In a tree, the nodes of the elements of a name are those of no
    other element. *)
Lemma tagged_node name d e :
  wf d → e ∈ elements d →
  el_uid e ∈ el_uid <$> getElementsByTagName name d ↔ localName e = name.
Proof.
  intros Hwf He. unfold getElementsByTagName. split.
  - intros (e' & Hu & [Hn He']%list_elem_of_filter)%list_elem_of_fmap.
    by rewrite (wf_uid_inj d e e' Hwf He He' Hu).
  - intros Hn. apply list_elem_of_fmap. exists e. split; [done |].
    by apply list_elem_of_filter.
Qed.

End update_facts.

(** ** The frames and the videos of the export *)

Module media_facts.
Import JS DOM DOM_facts RevealPrint update_facts.

Lemma activate_iframe_keeps : keeps_identity activate_iframe.
Proof.
  intros e. unfold activate_iframe. destruct (getAttribute e "data-src"); [| done].
  simpl. by rewrite lookup_insert_ne.
Qed.

Lemma activate_iframe_class e :
  attributes (activate_iframe e) !! "class" = attributes e !! "class".
Proof.
  unfold activate_iframe. destruct (getAttribute e "data-src"); [| done].
  simpl. by rewrite lookup_insert_ne.
Qed.

Lemma activate_iframe_again e : activate_iframe (activate_iframe e) = activate_iframe e.
Proof.
  unfold activate_iframe at 2.
  destruct (getAttribute e "data-src") as [v|] eqn:Hv.
  - unfold activate_iframe, getAttribute in *. simpl.
    rewrite lookup_insert_ne, Hv by done.
    unfold setAttribute. simpl. by rewrite insert_insert_eq.
  - unfold activate_iframe. by rewrite Hv.
Qed.

(** A change of attributes other than [class] keeps the frames that
    the selector finds. *)
Lemma pdf_iframes_dmap g d :
  keeps_identity g →
  (∀ e, attributes (g e) !! "class" = attributes e !! "class") →
  pdf_iframes (dmap g d) = g <$> pdf_iframes d.
Proof.
  intros Hg Hclass. unfold pdf_iframes.
  assert (∀ c e, has_class c (g e) = has_class c e) as Hhas.
  { intros c e. unfold has_class, classList. by rewrite Hclass. }
  pose proof (annotate_dmap below g (λ a, a) (false, false) d) as Ha.
  simpl in Ha. rewrite Ha.
  - rewrite filter_fmap_comm.
    + rewrite <- !list_fmap_compose. by apply list_fmap_ext.
    + intros [e a]. simpl. destruct (Hg e) as (_ & _ & -> & _). by rewrite Hhas.
  - intros a e. unfold below, is_section.
    destruct (Hg e) as (_ & _ & -> & _). by rewrite Hhas.
Qed.

Lemma pdf_iframes_in_elements d e : e ∈ pdf_iframes d → e ∈ elements d.
Proof.
  unfold pdf_iframes. intros ([e' a] & -> & [_ H]%list_elem_of_filter)%list_elem_of_fmap.
  by apply annotate_in_elements in H.
Qed.

Lemma setupIframes_closed_form d :
  setupIframes d = (dmap (on_nodes (el_uid <$> pdf_iframes d) activate_iframe) d, Normal).
Proof.
  unfold setupIframes. apply for_each_update.
  - intros e. apply activate_iframe_keeps.
  - apply activate_iframe_again.
Qed.

Lemma removeAttribute_absent name e :
  attributes e !! name = None → removeAttribute name e = e.
Proof.
  intros H. unfold removeAttribute. destruct e as [u ns n attrs]. simpl in *.
  by rewrite delete_id.
Qed.

Lemma activate_video_keeps : keeps_identity activate_video.
Proof.
  intros e. unfold activate_video. destruct (getAttribute e "data-src"); simpl.
  - rewrite !lookup_delete_ne, lookup_insert_ne by done. done.
  - by rewrite lookup_delete_ne.
Qed.

Lemma activate_video_attributes e :
  attributes (activate_video e) !! "controls" = None ∧
  attributes (activate_video e) !! "data-src" = None.
Proof.
  unfold activate_video. destruct (getAttribute e "data-src") as [v|] eqn:Hv; simpl.
  - rewrite lookup_delete_eq, lookup_delete_ne, lookup_delete_eq by done. done.
  - rewrite lookup_delete_eq, lookup_delete_ne by done. done.
Qed.

Lemma activate_video_again e : activate_video (activate_video e) = activate_video e.
Proof.
  destruct (activate_video_attributes e) as [Hc Hs].
  unfold activate_video at 1. unfold getAttribute. rewrite Hs.
  by apply removeAttribute_absent.
Qed.


Lemma tag_background_video_keeps : keeps_identity tag_background_video.
Proof.
  intros e. unfold tag_background_video.
  destruct (getAttribute e "data-background-video"); [| done].
  destruct (includes _ _); [done |]. simpl. by rewrite lookup_insert_ne.
Qed.

Lemma tag_background_video_attribute e v :
  getAttribute (tag_background_video e) "data-background-video" = Some v →
  includes v "#t=" = true.
Proof.
  unfold tag_background_video.
  destruct (getAttribute e "data-background-video") as [src|] eqn:Hsrc.
  - destruct (includes src "#t=") eqn:Hin.
    + rewrite Hsrc. by intros [= <-].
    + unfold getAttribute. simpl. rewrite lookup_insert_eq. intros [= <-].
      apply (JS_facts.includes_app src "#t=" "0.5").
  - by rewrite Hsrc.
Qed.

Lemma tag_background_video_again e :
  tag_background_video (tag_background_video e) = tag_background_video e.
Proof.
  unfold tag_background_video at 1.
  destruct (getAttribute (tag_background_video e) "data-background-video") as [v|] eqn:Hv;
    [| done].
  by rewrite (tag_background_video_attribute e v Hv).
Qed.

Lemma for_print_keeps : keeps_identity for_print.
Proof.
  intros e. unfold for_print.
  repeat case_decide; [apply activate_video_keeps | apply tag_background_video_keeps | done].
Qed.

Lemma localName_for_print e : localName (for_print e) = localName e.
Proof. by destruct (for_print_keeps e) as (_ & _ & -> & _). Qed.

Lemma for_print_again e : for_print (for_print e) = for_print e.
Proof.
  unfold for_print at 1. rewrite localName_for_print. unfold for_print.
  repeat case_decide;
    [apply activate_video_again | apply tag_background_video_again | done].
Qed.

Lemma setupVideos_closed_form d :
  wf d → setupVideos d = (dmap for_print d, Normal).
Proof.
  intros Hwf. unfold setupVideos.
  rewrite for_live_update;
    [| apply activate_video_keeps | apply activate_video_again | apply length_filter].
  simpl andThen.
  rewrite for_live_update;
    [| apply tag_background_video_keeps | apply tag_background_video_again | apply length_filter].
  rewrite !drop_0, dmap_dmap.
  rewrite getElementsByTagName_dmap by (apply on_nodes_keeps, activate_video_keeps).
  rewrite <- list_fmap_compose.
  rewrite (list_fmap_ext (el_uid ∘ _) el_uid (getElementsByTagName "section" d))
    by (intros ? e _; simpl; apply (on_nodes_keeps _ _ activate_video_keeps e)).
  f_equal. apply dmap_ext_in. intros e He. simpl.
  unfold on_nodes at 2.
  destruct (decide (el_uid e ∈ el_uid <$> getElementsByTagName "video" d)) as [Hv|Hv].
  - apply tagged_node in Hv; [| done | done].
    unfold for_print. rewrite decide_True by done.
    unfold on_nodes. rewrite decide_False; [done |].
    destruct (activate_video_keeps e) as (-> & _).
    rewrite tagged_node by done. by rewrite Hv.
  - rewrite tagged_node in Hv by done.
    unfold for_print. rewrite decide_False by done.
    unfold on_nodes. destruct (decide (localName e = "section")) as [Hs|Hs].
    + rewrite decide_True; [done | by apply tagged_node].
    + rewrite decide_False; [done | by rewrite tagged_node].
Qed.

End media_facts.

Section media.
Import JS DOM DOM_facts RevealPrint update_facts media_facts.

(** X3.  [setupIframes] ends normally and leaves the tree as it is but for
    the attributes of the frames that the selector finds: such a frame
    with a [data-src] gets this address as its [src]; a frame without
    [data-src] and every other element is unchanged. *)
Theorem setupIframes_loads_frames d :
  wf d →
  ∃ g, setupIframes d = (dmap g d, Normal) ∧
    (∀ e v, e ∈ pdf_iframes d → getAttribute e "data-src" = Some v →
            g e = setAttribute "src" v e) ∧
    (∀ e, e ∈ elements d →
          e ∉ pdf_iframes d ∨ hasAttribute e "data-src" = false → g e = e).
Proof.
  intros Hwf. exists (on_nodes (el_uid <$> pdf_iframes d) activate_iframe).
  split; [apply setupIframes_closed_form |]. split.
  - intros e v He Hv. unfold on_nodes.
    rewrite decide_True by (apply list_elem_of_fmap; by exists e).
    unfold activate_iframe. by rewrite Hv.
  - intros e He Hor. unfold on_nodes. case_decide as Hin; [| done].
    apply list_elem_of_fmap in Hin as (e' & Hu & He').
    assert (e = e') as <-.
    { apply (wf_uid_inj d); [done | done | by apply pdf_iframes_in_elements | done]. }
    destruct Hor as [Hnot|Hno]; [done |].
    unfold activate_iframe, hasAttribute, getAttribute in *.
    destruct (attributes e !! "data-src"); [| done].
    apply bool_decide_eq_false in Hno. destruct Hno. by eexists.
Qed.

Lemma setupIframes_loads_frames_scenario :
  ∃ g, setupIframes media_deck = (dmap g media_deck, Normal) ∧
    (∀ e v, e ∈ pdf_iframes media_deck → getAttribute e "data-src" = Some v →
            g e = setAttribute "src" v e) ∧
    (∀ e, e ∈ elements media_deck →
          e ∉ pdf_iframes media_deck ∨ hasAttribute e "data-src" = false → g e = e).
Proof. apply setupIframes_loads_frames. by_compute. Defined.

(** X4.  A second run of [setupIframes] changes nothing. *)
Theorem setupIframes_idempotent d :
  setupIframes (setupIframes d).1 = setupIframes d.
Proof.
  rewrite !setupIframes_closed_form. simpl.
  rewrite pdf_iframes_dmap;
    [| apply on_nodes_keeps, activate_iframe_keeps
     | intros e; unfold on_nodes; case_decide; [apply activate_iframe_class | done]].
  rewrite dmap_dmap, <- list_fmap_compose.
  rewrite (list_fmap_ext (el_uid ∘ _) el_uid (pdf_iframes d))
    by (intros ? e _; simpl; apply (on_nodes_keeps _ _ activate_iframe_keeps e)).
  f_equal. apply dmap_ext_in. intros e _. simpl.
  unfold on_nodes at 2. case_decide as Hin.
  - unfold on_nodes. destruct (activate_iframe_keeps e) as (-> & _).
    rewrite !decide_True by done. apply activate_iframe_again.
  - unfold on_nodes. by rewrite decide_False.
Qed.





(** X7.  In a tree, a second run of [setupVideos] changes nothing. *)
Theorem setupVideos_idempotent d :
  wf d → setupVideos (setupVideos d).1 = setupVideos d.
Proof.
  intros Hwf. rewrite (setupVideos_closed_form d) by done. simpl.
  rewrite setupVideos_closed_form
    by (apply wf_dmap; [intros e; apply for_print_keeps | done]).
  rewrite dmap_dmap. f_equal. apply dmap_ext_in. intros e _. apply for_print_again.
Qed.

Lemma setupVideos_idempotent_scenario :
  setupVideos (setupVideos media_deck).1 = setupVideos media_deck.
Proof. apply setupVideos_idempotent. by_compute. Defined.

End media.

(** ** The script of the engine *)

Module script_facts.
Import JS DOM DOM_facts tree_facts move_facts RevealMath.




(** [document.querySelector('head')] *)
Lemma head_found d h :
  List.find (λ e, bool_decide (localName e = "head")) (elements d) = Some h →
  h ∈ elements d ∧ localName h = "head".
Proof.
  intros [Hin Hb]%find_some. split; [by apply list_elem_of_In |].
  by apply bool_decide_eq_true in Hb.
Qed.

Lemma head_missing d :
  List.find (λ e, bool_decide (localName e = "head")) (elements d) = None →
  ∀ e, e ∈ elements d → localName e ≠ "head".
Proof.
  intros Hnone e He Hn. apply list_elem_of_In in He.
  pose proof (find_none _ _ Hnone e He) as Hb. simpl in Hb.
  by apply bool_decide_eq_false in Hb.
Qed.

(** A value that is no function is never called. *)
Lemma notify_no_function script n w v :
  callbacks w !! script = v → (∀ f, v ≠ Some (JFun f)) → notify script n w = w.
Proof.
  intros Hv Hno.
  assert (finish script w = w) as Hfin.
  { unfold finish. rewrite Hv. destruct v as [[| | | | | | |f]|]; try done.
    by destruct (Hno f). }
  destruct n; simpl; [done |]. by case_decide.
Qed.

Lemma notify_all_no_function script ns w v :
  callbacks w !! script = v → (∀ f, v ≠ Some (JFun f)) → notify_all script ns w = w.
Proof.
  intros Hv Hno. induction ns as [|n ns IH]; [done |].
  unfold notify_all in *. simpl. by rewrite (notify_no_function _ _ _ v).
Qed.


End script_facts.

Section script.
Import JS DOM DOM_facts tree_facts move_facts RevealMath script_facts.



(** X9.  [loadScript] ends normally when the document has a [head] element;
    without one it throws a [TypeError] and leaves the document as it
    is.  It never fails otherwise. *)
Theorem loadScript_outcome url callback w :
  (loadScript url callback w).2
  = (if decide (Exists (λ e, localName e = "head") (elements (document w)))
     then Normal else Throw TypeError) ∧
  ((loadScript url callback w).2 ≠ Normal →
   document (loadScript url callback w).1 = document w).
Proof.
  unfold loadScript.
  destruct (List.find _ (elements (document w))) as [h|] eqn:Hhead.
  - destruct (head_found _ _ Hhead) as [Hin Hname].
    change (document (set_callbacks _ w)) with (document w).
    destruct (attach_is_Some (el_uid h)
                (Elem (script_element (fresh_script w) url) Nil Nil) (document w))
      as [d' ->]; [by apply list_elem_of_fmap_2 |].
    simpl. split; [| done].
    rewrite decide_True; [done |]. apply Exists_exists. by exists h.
  - simpl. split; [| done].
    rewrite decide_False; [done |].
    intros (e & He & Hn)%Exists_exists. by apply (head_missing _ Hhead e).
Qed.

(** X10.  A callback that is no function is never called, and no
    notification changes anything. *)
Theorem loadScript_ignores_other_callback url callback ns w :
  (∀ f, callback ≠ JFun f) →
  notify_all (fresh_script w) ns (loadScript url callback w).1
  = (loadScript url callback w).1.
Proof.
  intros Hno. apply (notify_all_no_function _ _ _ (Some callback)).
  - apply loadScript_callback.
  - intros f [= ->]. by apply (Hno f).
Qed.

Lemma loadScript_ignores_other_callback_scenario :
  let w := Examples.page Examples.empty_deck "/deck.html" "" in
  notify_all (fresh_script w) [load; readystatechange "loaded"]
    (loadScript "tex-svg.js" JUndefined w).1
  = (loadScript "tex-svg.js" JUndefined w).1.
Proof. by apply loadScript_ignores_other_callback. Defined.




End script.

(** ** How link fixup ends *)

Module link_facts.
Import JS DOM DOM_facts RevealMath fixLinks_facts title_facts.

(** A string without a percent sign is its own decoding. *)
Lemma decode_plain lo hi s : includes s "%" = false → decode 0 lo hi s = Some s.
Proof.
  revert lo hi. induction s as [|c s IH]; intros lo hi; [done |].
  rewrite includes_cons. intros [Hc Hs]%orb_false_iff.
  apply bool_decide_eq_false in Hc.
  cbn [decode]. rewrite decide_False by congruence.
  by rewrite IH.
Qed.

Lemma substring_from_1 c s : substring_from (String c s) 1 = s.
Proof. apply (substring_from_append (String c "") s). Qed.

Lemma fixLink_completion a d :
  (fixLink a d).2 = match link_action d a with Raise e => Throw e | _ => Normal end.
Proof. rewrite fixLink_action. by destruct (link_action d a). Qed.

Lemma outcome_all_normal d anchors :
  (∀ a, a ∈ anchors → (fixLink a d).2 = Normal) → outcome d anchors = Normal.
Proof.
  induction anchors as [|a anchors IH]; intros H; [done |].
  simpl. pose proof (H a (list_elem_of_here _ _)) as Ha.
  rewrite fixLink_completion in Ha.
  destruct (link_action d a); [| | done]; apply IH; intros b Hb; apply H; by right.
Qed.

Lemma processed_all_normal d anchors :
  (∀ a, a ∈ anchors → (fixLink a d).2 = Normal) → processed d anchors = anchors.
Proof. intros H. by apply outcome_Normal, outcome_all_normal. Qed.

(** The loop ends at the first anchor that throws. *)
Lemma stops_at d pre a post e :
  (∀ b, b ∈ pre → (fixLink b d).2 = Normal) → (fixLink a d).2 = Throw e →
  outcome d (pre ++ a :: post) = Throw e ∧ processed d (pre ++ a :: post) = pre.
Proof.
  intros Hpre Ha. induction pre as [|b pre IH]; simpl.
  - rewrite fixLink_completion in Ha. destruct (link_action d a); by simplify_eq.
  - pose proof (Hpre b (list_elem_of_here _ _)) as Hb. rewrite fixLink_completion in Hb.
    destruct IH as [-> ->]; [intros; apply Hpre; by right |].
    by destruct (link_action d b).
Qed.

(** An anchor that has no turn, or whose turn changes nothing, is in
    the tree after the run. *)
Lemma anchor_left d a :
  wf d → a ∈ elements d →
  el_uid a ∉ el_uid <$> processed d (getElementsByTagName "a" d) ∨ fixed d a = a →
  a ∈ elements (fixLinks d).1.
Proof.
  intros Hwf Ha Hor. rewrite fixLinks_closed_form by done. simpl.
  rewrite elements_dmap. apply list_elem_of_fmap. exists a. split; [| done].
  unfold fix_those. case_decide as Hin; [| done].
  by destruct Hor.
Qed.

End link_facts.

Section links.
Import JS DOM DOM_facts RevealMath fixLinks_facts title_facts link_facts.

(** X13.  In a tree where every anchor is an HTML or an SVG element and no
    address of an SVG anchor has a percent sign, [fixLinks] ends
    normally: it throws only for an anchor without the property, or
    for an escape that cannot be decoded. *)
Theorem fixLinks_ends_normally d :
  wf d →
  (∀ a, a ∈ getElementsByTagName "a" d → namespaceURI a ≠ OtherNS) →
  (∀ a, a ∈ getElementsByTagName "a" d → namespaceURI a = SVG →
        includes (get_baseVal a) "%" = false) →
  (fixLinks d).2 = Normal.
Proof.
  intros Hwf Hns Hplain. rewrite fixLinks_closed_form by done. simpl.
  apply outcome_all_normal. intros a Ha.
  rewrite fixLink_completion. unfold link_action, href.
  specialize (Hns a Ha). specialize (Hplain a Ha).
  destruct (namespaceURI a); [done | | done].
  specialize (Hplain eq_refl).
  case_decide as Hempty; [done |].
  destruct (get_baseVal a) as [|c label]; [done |].
  rewrite substring_from_1.
  rewrite includes_cons in Hplain. apply orb_false_iff in Hplain as [_ Hplain].
  unfold decodeURIComponent. rewrite decode_plain by done.
  destruct (includes _ marker); [| done]. by destruct (slide_of d label).
Qed.

Lemma fixLinks_ends_normally_scenario :
  (fixLinks (Examples.equation_link SVG)).2 = Normal.
Proof.
  apply fixLinks_ends_normally.
  - by_compute.
  - intros a Ha. assert (a = Examples.the_anchor SVG) as ->; [| done].
    vm_compute in Ha. by apply list_elem_of_singleton in Ha.
  - intros a Ha _. assert (a = Examples.the_anchor SVG) as ->; [| done].
    vm_compute in Ha. by apply list_elem_of_singleton in Ha.
Defined.

(** X14.  The first anchor that throws ends [fixLinks] with its exception:
    that anchor and those after it are left as they are. *)
Theorem fixLinks_stops_at_exception d pre a post e :
  wf d →
  getElementsByTagName "a" d = pre ++ a :: post →
  (∀ b, b ∈ pre → (fixLink b d).2 = Normal) →
  (fixLink a d).2 = Throw e →
  (fixLinks d).2 = Throw e ∧
  ∀ b, b ∈ a :: post → b ∈ elements (fixLinks d).1.
Proof.
  intros Hwf Hanchors Hpre Ha.
  destruct (stops_at d pre a post e Hpre Ha) as [Hout Hproc].
  split.
  - rewrite fixLinks_closed_form by done. simpl. by rewrite Hanchors.
  - intros b Hb.
    assert (b ∈ getElementsByTagName "a" d) as Hbd.
    { rewrite Hanchors. apply elem_of_app. by right. }
    apply anchor_left; [done | by eapply anchors_in_elements |]. left.
    rewrite Hanchors, Hproc.
    pose proof (anchors_NoDup "a" d Hwf) as Hnd.
    rewrite Hanchors, fmap_app in Hnd. apply NoDup_app in Hnd as (_ & Hnd & _).
    intros Hu. apply (Hnd _ Hu). by apply list_elem_of_fmap_2.
Qed.

Lemma fixLinks_stops_at_exception_scenario :
  (fixLinks broken_links).2 = Throw URIError ∧
  ∀ b, b ∈ [broken_link; late_link] → b ∈ elements (fixLinks broken_links).1.
Proof.
  apply (fixLinks_stops_at_exception broken_links [escaped_link; dangling_link]
           broken_link [late_link] URIError).
  - by_compute.
  - by vm_compute.
  - intros b [->|[->|[]%elem_of_nil]%elem_of_cons]%elem_of_cons; by vm_compute.
  - by vm_compute.
Defined.

(** X15.  A link to an identifier that no element of the document has, or
    that an element outside every slide has, is left as it is. *)
Theorem fixLinks_keeps_dangling_link d a label :
  wf d →
  a ∈ getElementsByTagName "a" d → namespaceURI a = SVG →
  decodeURIComponent (substring_from (get_baseVal a) 1) = Some label →
  (getElementById label d = None ∨
   ∃ eqn, getElementById label d = Some eqn ∧ closest_section (el_uid eqn) d = None) →
  a ∈ elements (fixLinks d).1.
Proof.
  intros Hwf Ha Hns Hdec Hnone.
  apply anchor_left; [done | by eapply anchors_in_elements |]. right.
  unfold fixed, link_action, href. rewrite Hns.
  case_decide; [done |]. destruct (includes _ marker); [| done].
  rewrite Hdec.
  assert (slide_of d label = None) as ->; [| done].
  unfold slide_of. destruct Hnone as [->|(eqn & -> & ->)]; done.
Qed.

Lemma fixLinks_keeps_dangling_link_scenario :
  dangling_link ∈ elements (fixLinks (links_deck Nil)).1.
Proof.
  apply (fixLinks_keeps_dangling_link (links_deck Nil) dangling_link "mjx-eqn:9").
  - by_compute.
  - in_list.
  - done.
  - by vm_compute.
  - left. by vm_compute.
Defined.

(** X16.  The address of a link is decoded before the equation is looked
    up: a run that ends normally gives an SVG anchor whose address
    contains the marker and decodes to the identifier of an element
    on a slide the address of that slide. *)
Theorem fixLinks_decodes_address d a label eqn s :
  wf d →
  a ∈ getElementsByTagName "a" d → namespaceURI a = SVG →
  includes (get_baseVal a) marker = true →
  decodeURIComponent (substring_from (get_baseVal a) 1) = Some label →
  getElementById label d = Some eqn →
  closest_section (el_uid eqn) d = Some s →
  (fixLinks d).2 = Normal →
  set_baseVal ("#" +:+ id_of s) a ∈ elements (fixLinks d).1.
Proof.
  intros Hwf Ha Hns Hmark Hdec Heqn Hs Hnormal.
  rewrite fixLinks_closed_form in * by done. simpl in *.
  rewrite (outcome_Normal _ _ Hnormal).
  rewrite elements_dmap. apply list_elem_of_fmap. exists a.
  split; [| by eapply anchors_in_elements].
  unfold fix_those. rewrite decide_True by by apply list_elem_of_fmap_2.
  unfold fixed, link_action, href, slide_of. rewrite Hns, Hmark, Hdec, Heqn, Hs.
  case_decide as Hempty; [| done].
  rewrite Hempty in Hmark. by vm_compute in Hmark.
Qed.

Lemma fixLinks_decodes_address_scenario :
  set_baseVal "#slide-7" escaped_link ∈ elements (fixLinks (links_deck Nil)).1.
Proof.
  apply (fixLinks_decodes_address (links_deck Nil) escaped_link "mjx-eqn:3"
           (Examples.el 2 HTML "span" [("id", "mjx-eqn:3")])
           (Examples.el 1 HTML "section" [("id", "slide-7")])).
  - by_compute.
  - in_list.
  - done.
  - by vm_compute.
  - by vm_compute.
  - by vm_compute.
  - by vm_compute.
  - by vm_compute.
Defined.

End links.

(** ** The order of the elements when a node moves *)

Module order_facts.
Import DOM DOM_facts tree_facts move_facts.

Lemma getElementsByClassName_descendants slide cls d :
  getElementsByClassName slide cls d
  = filter (λ e, has_class cls e = true) (descendants slide d).
Proof.
  unfold getElementsByClassName, descendants.
  by destruct (find_node slide d) as [[es cs]|].
Qed.

Lemma wf_Text s r : wf (Text s r) → wf r.
Proof. done. Qed.

Lemma wf_Elem e c r :
  wf (Elem e c r) →
  wf c ∧ wf r ∧
  (el_uid e ∉ el_uid <$> elements c) ∧ (el_uid e ∉ el_uid <$> elements r) ∧
  ∀ u, u ∈ el_uid <$> elements c → u ∉ el_uid <$> elements r.
Proof.
  unfold wf. simpl. rewrite fmap_app.
  intros [He (Hc & Hcr & Hr)%NoDup_app]%NoDup_cons.
  split_and!; [done | done | | | done]; intros H; apply He, elem_of_app;
    [by left | by right].
Qed.

Lemma find_node_below s d es cs :
  find_node s d = Some (es, cs) → elements cs ⊆ elements d.
Proof.
  intros [Hsub _]%find_node_Some.
  destruct (subtree_elements d es cs Hsub) as (rest & Hperm).
  intros x Hx. rewrite Hperm. right. apply elem_of_app. by left.
Qed.

Lemma detach_notin u d : u ∉ el_uid <$> elements d → detach u d = (None, d).
Proof.
  induction d as [|s r IHr|e c IHc r IHr]; simpl; intros Hu.
  - done.
  - by rewrite IHr.
  - rewrite fmap_app in Hu.
    rewrite decide_False by (intros Heq; apply Hu; rewrite Heq; left).
    rewrite IHc by (intros H; apply Hu; right; apply elem_of_app; by left).
    rewrite IHr by (intros H; apply Hu; right; apply elem_of_app; by right).
    done.
Qed.

(** [detach] takes a block out of the elements in tree order. *)
Lemma detach_elements u d e c d' :
  detach u d = (Some (e, c), d') →
  ∃ l1 l2, elements d = l1 ++ e :: elements c ++ l2 ∧ elements d' = l1 ++ l2.
Proof.
  revert d'. induction d as [|s r IHr|e0 c0 IHc r IHr]; intros d'; cbn [detach].
  - done.
  - destruct (detach u r) as [x r'] eqn:Hr. intros [= -> <-]. simpl. by apply IHr.
  - case_decide as He.
    + intros [= -> -> <-]. by exists [], (elements r).
    + destruct (detach u c0) as [[x|] c0'] eqn:Hc.
      * intros Heq. simplify_eq. destruct (IHc _ eq_refl) as (l1 & l2 & H1 & H2).
        exists (e0 :: l1), (l2 ++ elements r). simpl. rewrite H1, H2.
        split; [| by rewrite app_assoc].
        by rewrite <- app_assoc, <- app_comm_cons, <- app_assoc.
      * destruct (detach u r) as [x r'] eqn:Hr. intros Heq. simplify_eq.
        destruct (IHr _ eq_refl) as (l1 & l2 & H1 & H2).
        exists (e0 :: elements c0 ++ l1), l2. simpl. rewrite H1, H2.
        split; by rewrite <- app_assoc.
Qed.

(** Taking a node from below the node [s] takes it from the
    children of [s]. *)
Lemma find_node_detach s u d es cs :
  wf d → find_node s d = Some (es, cs) → u ∈ el_uid <$> elements cs →
  ∃ x cs' d', detach u cs = (Some x, cs') ∧ detach u d = (Some x, d') ∧
              find_node s d' = Some (es, cs').
Proof.
  induction d as [|t r IHr|e c IHc r IHr]; intros Hwf Hfind Hu.
  - done.
  - apply wf_Text in Hwf. cbn [find_node] in Hfind.
    destruct (IHr Hwf Hfind Hu) as (x & cs' & r' & Hcs & Hr & Hf).
    exists x, cs', (Text t r'). split; [done |]. cbn [detach find_node].
    by rewrite Hr.
  - destruct (wf_Elem _ _ _ Hwf) as (Hwfc & Hwfr & Hec & Her & Hcr).
    cbn [find_node] in Hfind. cbn [detach find_node].
    destruct (decide (el_uid e = s)) as [Hes|Hes].
    + injection Hfind as <- <-.
      destruct (detach_is_Some u c Hu) as (x & cx & c' & Hc).
      exists (x, cx), c', (Elem e c' r). split; [done |].
      rewrite decide_False by (intros Heq; apply Hec; by rewrite Heq).
      rewrite Hc. split; [done |]. cbn [find_node]. by rewrite decide_True.
    + destruct (find_node s c) as [y|] eqn:Hc.
      * injection Hfind as ->.
        assert (u ∈ el_uid <$> elements c) as Huc.
        { apply list_elem_of_fmap in Hu as (z & -> & Hz).
          apply list_elem_of_fmap_2. by apply (find_node_below s c es cs). }
        destruct (IHc Hwfc eq_refl Hu) as (x & cs' & c' & Hcs & Hc' & Hf).
        exists x, cs', (Elem e c' r). split; [done |].
        rewrite decide_False by (intros Heq; apply Hec; by rewrite Heq).
        rewrite Hc'. split; [done |]. cbn [find_node].
        by rewrite decide_False, Hf.
      * assert (u ∈ el_uid <$> elements r) as Hur.
        { apply list_elem_of_fmap in Hu as (z & -> & Hz).
          apply list_elem_of_fmap_2. by apply (find_node_below s r es cs). }
        destruct (IHr Hwfr Hfind Hu) as (x & cs' & r' & Hcs & Hr' & Hf).
        exists x, cs', (Elem e c r'). split; [done |].
        rewrite decide_False by (intros Heq; apply Her; by rewrite Heq).
        rewrite detach_notin by (intros H; by apply (Hcr u)).
        rewrite Hr'. split; [done |]. cbn [find_node].
        by rewrite decide_False, Hc.
Qed.

(** The elements below a node of a tree are all different. *)
Lemma descendants_NoDup s d : wf d → NoDup (descendants s d).
Proof.
  intros Hwf. unfold descendants.
  destruct (find_node s d) as [[es cs]|] eqn:Hf; [| apply NoDup_nil_2].
  apply find_node_Some in Hf as [Hsub _].
  destruct (subtree_elements d es cs Hsub) as (rest & Hperm).
  unfold wf in Hwf. apply NoDup_fmap_1 in Hwf. rewrite Hperm in Hwf.
  apply NoDup_cons in Hwf as [_ Hwf]. by apply NoDup_app in Hwf as [? _].
Qed.

Lemma getElementsByClassName_NoDup slide cls d :
  wf d → NoDup (getElementsByClassName slide cls d).
Proof.
  intros Hwf. rewrite getElementsByClassName_descendants.
  by apply NoDup_filter, descendants_NoDup.
Qed.

(** *** The first element of a filtered list *)

Section first.
Context {A : Type} (P : A → Prop) `{!∀ x, Decision (P x)}.

Lemma filter_nil_before l1 x l rest :
  x ∉ l1 → filter P (l1 ++ x :: l) = x :: rest → filter P l1 = [].
Proof.
  intros Hx. rewrite filter_app.
  destruct (filter P l1) as [|y t] eqn:Hf; [done |].
  intros [= -> _]. destruct Hx.
  assert (x ∈ filter P l1) as Hin by (rewrite Hf; left).
  by apply list_elem_of_filter in Hin as [_ ?].
Qed.

(** The first element stays the first when another one leaves. *)
Lemma filter_head_remove k1 p k2 z r :
  p ≠ z → filter P (k1 ++ p :: k2) = z :: r →
  ∃ r', filter P (k1 ++ k2) = z :: r'.
Proof.
  intros Hp. rewrite !filter_app, filter_cons.
  destruct (filter P k1) as [|y t] eqn:Hk1; simpl.
  - case_decide; [by intros [= ? _] | by eauto].
  - intros [= -> _]. by eauto.
Qed.

(** ... and when a block that is not the first moves to the end. *)
Lemma filter_head_move l1 x c l2 z r :
  P x → x ≠ z → filter P (l1 ++ x :: c ++ l2) = z :: r →
  ∃ r', filter P (l1 ++ l2 ++ x :: c) = z :: r'.
Proof.
  intros HPx Hx. rewrite !filter_app, !filter_cons, !decide_True by done.
  destruct (filter P l1) as [|y t] eqn:Hk1; simpl.
  - by intros [= ? _].
  - intros [= -> _]. by eauto.
Qed.

(** When the first block moves to the end, the element after it is
    the first. *)
Lemma filter_second_first l1 x c l2 z rest :
  x ∉ l1 → P x → z ∉ c → filter P (l1 ++ x :: c ++ l2) = x :: z :: rest →
  ∃ r', filter P (l1 ++ l2 ++ x :: c) = z :: r'.
Proof.
  intros Hx HPx Hz Hf.
  pose proof (filter_nil_before _ _ _ _ Hx Hf) as Hl1.
  revert Hf. rewrite !filter_app, !filter_cons, !decide_True, Hl1 by done.
  rewrite filter_app. simpl. intros [= Hf].
  destruct (filter P c) as [|y t] eqn:Hc; simpl in Hf.
  - rewrite Hf. by eauto.
  - injection Hf as -> _. destruct Hz.
    assert (z ∈ filter P c) as Hin by (rewrite Hc; left).
    by apply list_elem_of_filter in Hin as [_ ?].
Qed.
End first.

End order_facts.

(** ** What [fixFooters] moves and removes *)

Module footer_facts.
Import DOM DOM_facts tree_facts move_facts fixFooters_facts order_facts RevealPrint.

Lemma subtree_texts a d e c :
  (e, c) ∈ subtrees d → texts (Some (el_uid e)) c ⊆ texts a d.
Proof.
  revert a. induction d as [|s r IHr|e0 c0 IHc r IHr]; intros a; simpl.
  - by intros ?%elem_of_nil.
  - intros H x Hx. right. by apply (IHr a H).
  - intros [H|[H|H]%elem_of_app]%elem_of_cons x Hx.
    + simplify_eq. apply elem_of_app. by left.
    + apply elem_of_app. left. by apply (IHc _ H).
    + apply elem_of_app. right. by apply (IHr _ H).
Qed.

(** A node with a child node has a child element or a text. *)
Lemma child_node a c :
  childNodes_length c ≠ 0 →
  (∃ y, (y, Some a) ∈ edges (Some a) c) ∨
  (∃ t, (t, Some (el_uid a)) ∈ texts (Some (el_uid a)) c).
Proof.
  destruct c as [|t r|y cy r]; simpl; [done | |]; intros _.
  - right. exists t. left.
  - left. exists y. rewrite edges_Elem. left.
Qed.

(** The turn of one footer: what it does to the tree. *)
Lemma fixFooter_effect slide footer d :
  wf d → footer ∈ getElementsByClassName slide "footer" d →
  ∃ parent es,
    child_of footer parent d ∧ es ∈ elements d ∧ el_uid es = slide ∧
    ∃ d', fixFooter slide footer d = (d', Normal) ∧
      (nodeName parent ≠ "P" → d' = d) ∧
      (nodeName parent = "P" →
         child_of footer es d' ∧
         (elements d' ≡ₚ elements d ∨ parent :: elements d' ≡ₚ elements d) ∧
         (only_child footer parent d → el_uid parent ≠ slide → parent ∉ elements d') ∧
         (∀ y q, child_of y q d → y ≠ footer → child_of y q d' ∨ y = parent) ∧
         ∃ l1 l2 c,
           find_node (el_uid footer) d = Some (footer, c) ∧
           descendants slide d = l1 ++ footer :: elements c ++ l2 ∧
           (descendants slide d' = l1 ++ l2 ++ footer :: elements c ∨
            ∃ k1 k2, l1 ++ l2 ++ footer :: elements c = k1 ++ parent :: k2 ∧
                     descendants slide d' = k1 ++ k2)).
Proof.
  intros Hwf Hfooter.
  destruct (footer_below _ _ _ _ Hwf Hfooter)
    as (Hcls & es & cs & parent & Hslide & Hes & Hin & Hedge & Hchild).
  assert (es ∈ elements d) as Hesd.
  { rewrite <- subtrees_fst. by apply (list_elem_of_fmap_2' fst _ (es, cs)). }
  exists parent, es. split_and!; [done | done | done |].
  unfold fixFooter.
  rewrite (parentElement_edge d footer (Some parent) Hwf Hchild).
  case_decide as HP; [| exists d; split_and!; [done | done | done]].
  (* the footer leaves its paragraph *)
  assert (footer ∈ elements d) as Hfd by (by eapply edges_in_elements).
  destruct (detach_is_Some (el_uid footer) d) as (e & c & d0 & Hdet).
  { by apply list_elem_of_fmap_2. }
  destruct (detach_Some _ _ None _ _ _ Hdet) as (Hu & Hfind & Htexts & p & Hp & Hperm).
  assert ((e, p) = (footer, Some parent)) as [= -> ->].
  { apply (edge_unique d); [done | | done | done].
    rewrite Hperm. left. }
  pose proof Hfind as Hfooter_node.
  apply find_node_Some in Hfind as [Hsub _].
  assert (find_node slide d = Some (es, cs)) as Hslide_node.
  { rewrite <- Hslide. by apply (find_node_unique d (es, cs)). }
  destruct (find_node_detach slide (el_uid footer) d es cs Hwf Hslide_node)
    as (x & cs0 & d0' & Hcs & Hd & Hslide_node0); [by apply list_elem_of_fmap_2 |].
  rewrite Hdet in Hd. injection Hd as <- <-.
  destruct (detach_elements _ _ _ _ _ Hcs) as (l1 & l2 & Hl & Hl0).
  assert (descendants slide d = l1 ++ footer :: elements c ++ l2) as Hdesc
    by (unfold descendants; by rewrite Hslide_node).
  assert (es ∈ elements d0) as Hes0.
  { pose proof Hesd as Hesd'.
    rewrite <- (edges_fst None), Hperm, fmap_cons, fmap_app, !edges_fst in Hesd'.
    apply elem_of_cons in Hesd' as [->|[Hesc|]%elem_of_app]; [| | done].
    - by destruct (subtree_not_below d footer cs footer).
    - destruct (elements_in_subtrees c es Hesc) as [cs' Hcs'].
      destruct (subtree_split None d footer c Hsub) as (_ & _ & _ & Hsubs).
      assert ((es, cs') = (es, cs)) as [= ->].
      { apply (subtree_unique d); [done | by apply Hsubs | done | done]. }
      destruct (subtree_elements c es cs Hcs') as (rest & Hrest).
      destruct (subtree_not_below d footer c footer); [done | done | | done].
      rewrite Hrest. right. apply elem_of_app. by left. }
  unfold appendChild. rewrite Hdet.
  destruct (attach_is_Some slide (Elem footer c Nil) d0) as [d1 Hatt].
  { rewrite <- Hslide. by apply list_elem_of_fmap_2. }
  rewrite Hatt.
  destruct (attach_Some _ _ _ None _ Hatt)
    as (es' & c0 & Hslide' & Hf0 & Hf1 & Htexts1 & Hperm1).
  rewrite edges_Elem in Hperm1. cbn [texts fmap option_fmap option_map] in *.
  assert (edges None d1 ≡ₚ (footer, Some es') :: edges (Some footer) c ++ edges None d0)
    as Hd1 by (rewrite Hperm1; simpl; solve_Permutation).
  assert (elements d1 ≡ₚ elements d) as Hel1.
  { rewrite <- !(edges_fst None), Hd1, Hperm. by rewrite !fmap_cons. }
  assert (wf d1) as Hwf1 by (unfold wf; by rewrite Hel1).
  assert (es' = es) as ->.
  { apply (wf_uid_inj d1); [done | | by rewrite Hel1 | congruence].
    apply find_node_Some in Hf1 as [Hf1 _].
    rewrite <- subtrees_fst.
    by apply (list_elem_of_fmap_2' fst _ (es', append c0 (Elem footer c Nil))). }
  rewrite Hslide_node0 in Hf0. injection Hf0 as <-.
  assert (descendants slide d1 = l1 ++ l2 ++ footer :: elements c) as Hdesc1.
  { unfold descendants. rewrite Hf1, elements_append, Hl0. simpl.
    by rewrite app_nil_r, <- app_assoc. }
  assert (∀ y q, child_of y q d → y ≠ footer → child_of y q d1) as Hothers.
  { intros y q Hy Hne. unfold child_of in *. fold (edges None d) in Hy.
    fold (edges None d1). rewrite Hd1. rewrite Hperm in Hy.
    apply elem_of_cons in Hy as [[= -> _]|Hy]; [done | by right]. }
  assert (child_of footer es d1) as Hmoved.
  { unfold child_of. fold (edges None d1). rewrite Hd1. left. }
  assert (texts None d1 ≡ₚ texts None d) as Htexts_same.
  { rewrite Htexts1, Htexts. simpl. solve_Permutation. }
  assert (parent ∈ elements d1) as Hpar1.
  { rewrite Hel1. destruct (edges_parent_closed _ _ _ _ Hchild); done. }
  destruct (find_node_is_Some (el_uid parent) d1) as [[ep cp] Hfp].
  { by apply list_elem_of_fmap_2. }
  rewrite Hfp. apply find_node_Some in Hfp as Hfp'. destruct Hfp' as [Hep Hepu].
  simpl in Hepu.
  assert (ep = parent) as ->.
  { apply (wf_uid_inj d1); [done | | done | done].
    rewrite <- subtrees_fst. by apply (list_elem_of_fmap_2' fst _ (ep, cp)). }
  (* a paragraph with the footer only is empty now *)
  assert (only_child footer parent d → el_uid parent ≠ slide →
          childNodes_length cp = 0) as Honly.
  { intros [Hedges Hnotext] Hnot_slide.
    rewrite Forall_forall in Hedges. rewrite Forall_forall in Hnotext.
    destruct (decide (childNodes_length cp = 0)) as [|Hne]; [done | exfalso].
    destruct (child_node parent cp Hne) as [[y Hy]|[t Ht]].
    - apply (subtree_edges None d1 parent cp Hep) in Hy.
      assert (y = footer) as ->.
      { pose proof Hy as Hy'. rewrite Hd1 in Hy'.
        apply elem_of_cons in Hy' as [[= -> _]|Hy']; [done |].
        apply (Hedges (y, Some parent)); [| done].
        rewrite Hperm. by right. }
      assert ((footer, Some parent) = (footer, Some es)) as [= ->].
      { by apply (edge_unique d1). }
      by apply Hnot_slide.
    - apply (subtree_texts None d1 parent cp Hep) in Ht.
      rewrite Htexts_same in Ht. by apply (Hnotext _ Ht). }
  case_decide as Hempty.
  2: { exists d1. split_and!; [done | done |]. intros _.
       split_and!; [done | by left | | by left; apply Hothers |].
       - intros H1 H2. by destruct Hempty, Honly.
       - exists l1, l2, c. split_and!; [done | done | by left]. }
  (* the paragraph is empty *)
  assert (el_uid parent ≠ slide) as Hnot_slide.
  { intros Heq. rewrite Heq, Hf1 in Hfp. injection Hfp as _ <-.
    rewrite childNodes_length_append in Hempty. simpl in Hempty. lia. }
  assert (∃ gp, child_of parent gp d1) as [gp Hgp].
  { destruct (edges_parent_closed _ _ _ _ Hedge) as [[= <-]|Hpin]; [done |].
    destruct (elements_in_edges (Some es) cs parent Hpin) as [pp Hpp].
    destruct (edges_Some_parent _ _ _ _ Hpp) as [gp ->]. exists gp.
    apply (subtree_edges None d es cs Hes) in Hpp.
    unfold child_of. fold (edges None d1). rewrite Hd1.
    rewrite Hperm in Hpp.
    apply elem_of_cons in Hpp as [[= -> ->]|Hpp]; [| by right].
    by pose proof (edges_irreflexive None d _ _ Hwf Hchild eq_refl). }
  rewrite (parentElement_edge d1 parent (Some gp) Hwf1 Hgp).
  unfold removeChild.
  destruct (detach_is_Some (el_uid parent) d1) as (e2 & c2 & d2 & Hdet2).
  { by apply list_elem_of_fmap_2. }
  rewrite Hdet2. simpl. exists d2. split; [done |].
  destruct (detach_Some _ _ None _ _ _ Hdet2) as (Hu2 & Hfind2 & Htexts2 & p2 & Hp2 & Hperm2).
  rewrite Hfp in Hfind2. injection Hfind2 as <- <-.
  destruct cp as [| |]; [| done | done].
  cbn [edges annotate texts app fmap option_fmap option_map] in Hperm2, Htexts2.
  fold (edges None d2) in Hperm2.
  assert (elements d1 ≡ₚ parent :: elements d2) as Hel2.
  { rewrite <- !(edges_fst None), Hperm2. by rewrite fmap_cons. }
  split; [done |]. intros _. split_and!.
  - unfold child_of in *. fold (edges None d1) in Hmoved. fold (edges None d2).
    rewrite Hperm2 in Hmoved.
    apply elem_of_cons in Hmoved as [[= -> _]|Hmoved]; [| done].
    by pose proof (edges_irreflexive None d _ _ Hwf Hchild eq_refl).
  - right. by rewrite <- Hel2.
  - intros _ _ Hin2.
    unfold wf in Hwf1. rewrite Hel2, fmap_cons in Hwf1.
    apply NoDup_cons in Hwf1 as [Hnot _]. by apply Hnot, list_elem_of_fmap_2.
  - intros y q Hy Hne. pose proof (Hothers y q Hy Hne) as Hy1.
    unfold child_of in *. fold (edges None d1) in Hy1. fold (edges None d2).
    rewrite Hperm2 in Hy1.
    apply elem_of_cons in Hy1 as [[= -> _]|Hy1]; [by right | by left].
  - exists l1, l2, c. split_and!; [done | done |]. right.
    assert (parent ∈ elements cs) as Hpcs.
    { destruct (edges_parent_closed _ _ _ _ Hedge) as [[= <-]|Hpin]; done. }
    destruct (find_node_detach slide (el_uid parent) d1 es
                (append cs0 (Elem footer c Nil)) Hwf1 Hf1)
      as (x2 & cs2 & d2' & Hcs2 & Hd2 & Hslide_node2).
    { apply list_elem_of_fmap_2.
      rewrite elements_append, Hl0. simpl. rewrite app_nil_r.
      rewrite Hl in Hpcs. revert Hpcs. rewrite !elem_of_app, !elem_of_cons, !elem_of_app.
      tauto. }
    rewrite Hdet2 in Hd2. injection Hd2 as <- <-.
    destruct (detach_elements _ _ _ _ _ Hcs2) as (k1 & k2 & Hk & Hk2).
    exists k1, k2. split.
    + rewrite elements_append, Hl0 in Hk. simpl in Hk.
      by rewrite <- Hk, app_nil_r, <- app_assoc.
    + unfold descendants. by rewrite Hslide_node2.
Qed.

End footer_facts.

Section loops_at_rest.
Context {St A : Type}.
Implicit Types (coll : St → list A) (body : A → St → St * completion).

(** A loop whose body changes nothing changes nothing. *)
Lemma for_live_at_rest coll body fuel i st :
  (∀ x, x ∈ coll st → body x st = (st, Normal)) →
  length (coll st) ≤ i + fuel →
  for_live fuel coll body i st = (st, Normal).
Proof.
  intros Hbody. revert i. induction fuel as [|fuel IH]; intros i Hlen; simpl;
    destruct (coll st !! i) as [x|] eqn:Hx; try done.
  - apply lookup_lt_Some in Hx. lia.
  - rewrite Hbody by (by eapply list_elem_of_lookup_2). apply IH. lia.
Qed.

Lemma for_each_at_rest (items : list A) body st :
  (∀ x, x ∈ items → body x st = (st, Normal)) →
  for_each items body st = (st, Normal).
Proof.
  induction items as [|x items IH]; intros Hbody; [done |].
  simpl. rewrite Hbody by left. apply IH. intros y Hy. apply Hbody. by right.
Qed.

(** A loop that has reached the index [lo] ends normally when its
    body keeps an invariant from there on. *)
Lemma for_live_normal_from (Inv : St → Prop) (size : St → nat) coll body lo :
  (∀ st, Inv st → length (coll st) ≤ size st) →
  (∀ st i x, lo ≤ i → Inv st → coll st !! i = Some x →
     ∃ st', body x st = (st', Normal) ∧ Inv st' ∧ size st' ≤ size st) →
  ∀ fuel i st, lo ≤ i → Inv st → size st ≤ i + fuel →
    ∃ st', for_live fuel coll body i st = (st', Normal) ∧ Inv st'.
Proof.
  intros Hsize Hbody fuel. induction fuel as [|fuel IH]; intros i st Hlo HI Hlen.
  - assert (coll st !! i = None) as Hi.
    { apply lookup_ge_None. specialize (Hsize _ HI). lia. }
    exists st. simpl. by rewrite Hi.
  - simpl. destruct (coll st !! i) as [x|] eqn:Hi; [| by exists st].
    destruct (Hbody _ _ _ Hlo HI Hi) as (st' & -> & HI' & Hle).
    apply IH; [lia | done | lia].
Qed.
End loops_at_rest.

Section footers.
Import DOM DOM_facts tree_facts move_facts fixFooters_facts order_facts footer_facts
  RevealPrint.

Lemma set_document_same w : set_document (document w) w = w.
Proof. by destruct w. Qed.

(** X17.  Where no footer of a slide is the child of a paragraph,
    [fixFooters] changes nothing. *)
Theorem fixFooters_nothing_to_fix w :
  wf (document w) →
  (∀ slide footer parent, slide ∈ getSlides w →
     footer ∈ getElementsByClassName slide "footer" (document w) →
     child_of footer parent (document w) → nodeName parent ≠ "P") →
  fixFooters w = (w, Normal).
Proof.
  intros Hwf Hnone. unfold fixFooters, on_document.
  rewrite for_each_at_rest; [by rewrite set_document_same |].
  intros slide Hslide. unfold fixFooters_slide.
  apply for_live_at_rest; [| simpl; apply footers_length].
  intros footer Hfooter.
  destruct (fixFooter_effect slide footer (document w) Hwf Hfooter)
    as (parent & es & Hchild & _ & _ & d' & Hstep & Hsame & _).
  rewrite Hstep, Hsame; [done |]. by apply (Hnone slide footer).
Qed.

Lemma fixFooters_nothing_to_fix_scenario :
  fixFooters (Examples.deck placed_footers) = (Examples.deck placed_footers, Normal).
Proof.
  apply fixFooters_nothing_to_fix.
  - by_compute.
  - intros slide footer parent _ _ Hchild.
    destruct (edges_parent_closed _ _ _ _ Hchild) as [|Hin]; [done |].
    revert parent Hin Hchild.
    assert (Forall (λ q, nodeName q ≠ "P") (elements placed_footers)) as Hall
      by by_compute.
    rewrite Forall_forall in Hall. intros parent Hin _. by apply Hall.
Defined.

(** X18.  The first footer of a slide that is the child of a paragraph
    becomes a child of the slide, and stays one; a paragraph that
    held nothing else is removed. *)
Theorem fixFooters_slide_moves_first_footer slide d footer others parent es :
  wf d →
  getElementsByClassName slide "footer" d = footer :: others →
  child_of footer parent d → nodeName parent = "P" →
  es ∈ elements d → el_uid es = slide →
  nodeName es ≠ "P" → nodeName footer ≠ "P" →
  ∃ d', fixFooters_slide slide d = (d', Normal) ∧
    child_of footer es d' ∧
    (only_child footer parent d → parent ∉ elements d').
Proof.
  intros Hwf Hcoll Hchild HP Hes Hslide Hes_notP Hfooter_notP.
  assert (footer ∈ getElementsByClassName slide "footer" d) as Hfooter
    by (rewrite Hcoll; left).
  destruct (fixFooter_effect slide footer d Hwf Hfooter)
    as (parent' & es' & Hchild' & Hes' & Hslide' & d1 & Hstep & _ & Heffect).
  assert (parent' = parent) as ->.
  { assert ((footer, Some parent') = (footer, Some parent)) as [= ->]; [| done].
    by apply (edge_unique d). }
  assert (es' = es) as -> by (apply (wf_uid_inj d); [done | done | done | congruence]).
  destruct (Heffect HP) as (Hmoved & _ & Hremoved & _).
  destruct (fixFooter_step slide footer d Hwf Hfooter) as (d1' & Hstep' & Htid1).
  rewrite Hstep in Hstep'. injection Hstep' as <-.
  assert (el_uid parent ≠ slide) as Hnot_slide.
  { intros Heq. destruct Hes_notP.
    assert (es = parent) as ->; [| done].
    apply (wf_uid_inj d); [done | done | | congruence].
    destruct (edges_parent_closed _ _ _ _ Hchild); done. }
  unfold fixFooters_slide.
  destruct (length (elements d)) as [|n] eqn:Hlen.
  { destruct (elements d); [by apply elem_of_nil in Hes | done]. }
  cbn [for_live]. rewrite Hcoll. cbn [lookup list_lookup]. rewrite Hstep.
  destruct (for_live_normal (tidied d1) (λ d, length (elements d))
              (getElementsByClassName slide "footer") (fixFooter slide))
    with (fuel := n) (i := 1) (st := d1) as (d' & Hrun & Htid).
  - intros st _. apply footers_length.
  - intros st i x Hst Hx.
    destruct (fixFooter_step slide x st) as (st' & Hstep' & Hst').
    + by destruct Hst.
    + by eapply list_elem_of_lookup_2.
    + exists st'. split; [done |]. split; [by eapply tidied_trans |].
      by destruct Hst' as (_ & _ & ? & _).
  - apply tidied_refl. by destruct Htid1.
  - destruct Htid1 as (_ & _ & Hle & _). lia.
  - exists d'. split; [done |].
    destruct Htid as (_ & Hsub & _ & _ & Hkeep). split.
    + destruct (Hkeep footer es Hmoved) as [|[? _]]; [by right | done | done].
    + intros Honly Hin. by apply (Hremoved Honly Hnot_slide), Hsub.
Qed.

Lemma fixFooters_slide_moves_first_footer_scenario :
  ∃ d', fixFooters_slide 1 Examples.two_footers = (d', Normal) ∧
    child_of (Examples.el 3 HTML "span" [("class", "footer")])
             (Examples.el 1 HTML "section" []) d' ∧
    Examples.el 2 HTML "p" [] ∉ elements d'.
Proof.
  destruct (fixFooters_slide_moves_first_footer 1 Examples.two_footers
              (Examples.el 3 HTML "span" [("class", "footer")])
              [Examples.el 5 HTML "span" [("class", "footer")]]
              (Examples.el 2 HTML "p" []) (Examples.el 1 HTML "section" []))
    as (d' & Hrun & Hchild & Hremoved).
  - by_compute.
  - by vm_compute.
  - by_compute.
  - by vm_compute.
  - in_list.
  - done.
  - by vm_compute.
  - by vm_compute.
  - exists d'. split_and!; [done | done |]. apply Hremoved. by_compute.
Defined.

(** X19.  When the first footer of a slide leaves its paragraph, the footer
    that follows it in the collection takes its place there, and the
    loop goes on after that place: that footer is never looked at,
    and stays the child of its parent, paragraph or not. *)
Theorem fixFooters_slide_skips_next slide d f1 f2 others p1 p2 c1 :
  wf d →
  getElementsByClassName slide "footer" d = f1 :: f2 :: others →
  child_of f1 p1 d → nodeName p1 = "P" →
  find_node (el_uid f1) d = Some (f1, c1) → f2 ∉ elements c1 →
  child_of f2 p2 d → nodeName f2 ≠ "P" →
  ∃ d', fixFooters_slide slide d = (d', Normal) ∧ child_of f2 p2 d'.
Proof.
  intros Hwf Hcoll Hchild1 HP1 Hnode1 Hout Hchild2 HnotP.
  pose (P := λ e : element, has_class "footer" e = true).
  assert (f1 ∈ getElementsByClassName slide "footer" d) as Hfooter
    by (rewrite Hcoll; left).
  assert (f1 ≠ f2) as Hne.
  { pose proof (getElementsByClassName_NoDup slide "footer" d Hwf) as Hnd.
    rewrite Hcoll in Hnd.
    apply NoDup_cons in Hnd as [Hnd _]. intros ->. apply Hnd. left. }
  destruct (fixFooter_effect slide f1 d Hwf Hfooter)
    as (parent & es & Hchild' & _ & _ & d1 & Hstep & _ & Heffect).
  assert (parent = p1) as ->.
  { assert ((f1, Some parent) = (f1, Some p1)) as [= ->]; [| done].
    by apply (edge_unique d). }
  destruct (Heffect HP1) as (_ & _ & _ & Hothers & l1 & l2 & c & Hnode & Hdesc & Hdesc1).
  rewrite Hnode1 in Hnode. injection Hnode as <-.
  destruct (fixFooter_step slide f1 d Hwf Hfooter) as (d1' & Hstep' & Htid1).
  rewrite Hstep in Hstep'. injection Hstep' as <-.
  assert (child_of f2 p2 d1) as Hchild2'.
  { destruct (Hothers f2 p2 Hchild2) as [? | ->]; [done | done |]. by destruct HnotP. }
  assert (∃ r, getElementsByClassName slide "footer" d1 = f2 :: r) as Hfirst.
  { rewrite getElementsByClassName_descendants in Hcoll |- *.
    fold P in Hcoll |- *. rewrite Hdesc in Hcoll.
    pose proof (descendants_NoDup slide d Hwf) as Hnd. rewrite Hdesc in Hnd.
    assert (f1 ∉ l1) as Hl1.
    { apply NoDup_app in Hnd as (_ & Hnd & _). intros Hin. apply (Hnd _ Hin). left. }
    assert (P f1) as HPf1.
    { rewrite getElementsByClassName_descendants in Hfooter.
      by apply list_elem_of_filter in Hfooter as [? _]. }
    destruct (filter_second_first P l1 f1 (elements c1) l2 f2 others Hl1 HPf1 Hout Hcoll)
      as [r Hr].
    destruct Hdesc1 as [->|(k1 & k2 & Hk & ->)]; [by exists r |].
    rewrite Hk in Hr. apply (filter_head_remove P k1 p1 k2 f2 r); [| done].
    intros ->. by destruct HnotP. }
  unfold fixFooters_slide.
  destruct (length (elements d)) as [|n] eqn:Hlen.
  { destruct (elements d) eqn:Hel; [| done].
    apply edges_in_elements in Hchild2. rewrite Hel in Hchild2.
    by apply elem_of_nil in Hchild2. }
  cbn [for_live]. rewrite Hcoll. cbn [lookup list_lookup]. rewrite Hstep.
  pose (Inv := λ st : dom,
    tidied d1 st ∧
    (∃ r, getElementsByClassName slide "footer" st = f2 :: r) ∧
    child_of f2 p2 st).
  destruct (for_live_normal_from Inv (λ d, length (elements d))
              (getElementsByClassName slide "footer") (fixFooter slide) 1)
    with (fuel := n) (i := 1) (st := d1) as (d' & Hrun & _ & _ & Hchild).
  - intros st _. apply footers_length.
  - intros st i x Hi (Htid & [r Hr] & Hc2) Hx.
    assert (wf st) as Hwf_st by (by destruct Htid).
    assert (x ∈ getElementsByClassName slide "footer" st) as Hxin
      by (by eapply list_elem_of_lookup_2).
    assert (x ≠ f2) as Hxne.
    { intros ->. pose proof (getElementsByClassName_NoDup slide "footer" st Hwf_st) as Hnd.
      assert (i = 0); [| lia].
      apply (NoDup_lookup _ _ _ f2 Hnd); [done | by rewrite Hr]. }
    destruct (fixFooter_step slide x st Hwf_st Hxin) as (st' & Hrun & Htid').
    destruct (fixFooter_effect slide x st Hwf_st Hxin)
      as (parent & es' & _ & _ & _ & st'' & Hrun' & Hsame & Heffect').
    rewrite Hrun in Hrun'. injection Hrun' as <-.
    exists st'. split; [done |]. split; [| by destruct Htid' as (_ & _ & ? & _)].
    split; [by eapply tidied_trans |].
    destruct (decide (nodeName parent = "P")) as [HP|HP];
      [| rewrite (Hsame HP); split; [by exists r | done]].
    destruct (Heffect' HP)
      as (_ & _ & _ & Hothers' & k1 & k2 & c & _ & Hdesc' & Hdesc'').
    split.
    + rewrite getElementsByClassName_descendants in Hr, Hxin |- *.
      fold P in Hr, Hxin |- *. rewrite Hdesc' in Hr.
      apply list_elem_of_filter in Hxin as [HPx _].
      destruct (filter_head_move P k1 x (elements c) k2 f2 r HPx Hxne Hr) as [r' Hr'].
      destruct Hdesc'' as [->|(m1 & m2 & Hm & ->)]; [by exists r' |].
      rewrite Hm in Hr'. apply (filter_head_remove P m1 parent m2 f2 r'); [| done].
      intros ->. by destruct HnotP.
    + destruct (Hothers' f2 p2 Hc2) as [? | ->]; [done | done |]. by destruct HnotP.
  - done.
  - split_and!; [apply tidied_refl; by destruct Htid1 | done | done].
  - destruct Htid1 as (_ & _ & Hle & _). lia.
  - by exists d'.
Qed.

Lemma fixFooters_slide_skips_next_scenario :
  ∃ d', fixFooters_slide 1 Examples.two_footers = (d', Normal) ∧
    child_of (Examples.el 5 HTML "span" [("class", "footer")])
             (Examples.el 4 HTML "p" []) d'.
Proof.
  apply (fixFooters_slide_skips_next 1 Examples.two_footers
           (Examples.el 3 HTML "span" [("class", "footer")])
           (Examples.el 5 HTML "span" [("class", "footer")]) []
           (Examples.el 2 HTML "p" []) (Examples.el 4 HTML "p" []) (Text "A" Nil)).
  - by_compute.
  - by vm_compute.
  - by_compute.
  - by vm_compute.
  - by vm_compute.
  - apply not_elem_of_nil.
  - by_compute.
  - by vm_compute.
Defined.

(** X20.  [fixFooters] removes nothing but paragraphs: every element of the
    document that is no [P] element is in the document after it. *)
Theorem fixFooters_removes_only_paragraphs w :
  wf (document w) →
  ∃ d', fixFooters w = (set_document d' w, Normal) ∧
    ∀ x, x ∈ elements (document w) → x ∈ elements d' ∨ nodeName x = "P".
Proof.
  intros Hwf. unfold fixFooters, on_document.
  pose (Inv := λ st : dom,
    tidied (document w) st ∧
    ∀ x, x ∈ elements (document w) → x ∈ elements st ∨ nodeName x = "P").
  destruct (for_each_normal Inv (getSlides w) fixFooters_slide)
    with (st := document w) as (d' & -> & _ & Hkept).
  - intros st slide Hst _. unfold fixFooters_slide.
    apply (for_live_normal Inv (λ d, length (elements d))); [| | done | simpl; lia].
    + intros st' _. apply footers_length.
    + clear st Hst. intros st i x [Htid Hkept] Hx.
      assert (wf st) as Hwf_st by (by destruct Htid).
      assert (x ∈ getElementsByClassName slide "footer" st) as Hfooter
        by (by eapply list_elem_of_lookup_2).
      destruct (fixFooter_step slide x st Hwf_st Hfooter) as (st' & Hstep & Htid').
      destruct (fixFooter_effect slide x st Hwf_st Hfooter)
        as (parent & es & _ & _ & _ & st'' & Hstep' & Hsame & Heffect).
      rewrite Hstep in Hstep'. injection Hstep' as <-.
      exists st'. split; [done |]. split; [| by destruct Htid' as (_ & _ & ? & _)].
      split; [by eapply tidied_trans |].
      intros y Hy. destruct (Hkept y Hy) as [Hin|]; [| by right].
      destruct (decide (nodeName parent = "P")) as [HP|HP].
      * destruct (Heffect HP) as (_ & [Hperm|Hperm] & _).
        -- left. by rewrite Hperm.
        -- rewrite <- Hperm in Hin.
           apply elem_of_cons in Hin as [->|Hin]; [by right | by left].
      * rewrite (Hsame HP). by left.
  - split; [by apply tidied_refl | by left].
  - by exists d'.
Qed.

Lemma fixFooters_removes_only_paragraphs_scenario :
  ∃ d', fixFooters (Examples.deck Examples.two_footers)
        = (set_document d' (Examples.deck Examples.two_footers), Normal) ∧
    ∀ x, x ∈ elements (document (Examples.deck Examples.two_footers)) →
         x ∈ elements d' ∨ nodeName x = "P".
Proof. apply fixFooters_removes_only_paragraphs. by_compute. Defined.

End footers.
